(** * Multipart decoding and media ingestion of the network service

    A shallow embedding of [MediaService] (services/MediaService.ts):
    [parseMultipartFile], [splitBuffer], [uploadFile] and
    [uploadAndCreateMedia], together with the parts of the JavaScript and
    Node.js run-time library these methods call. *)

From Stdlib Require Import Strings.String Strings.Ascii Strings.Byte.
From Stdlib Require Import List NArith ZArith Bool Lia.
From Stdlib Require DecimalString.
Import ListNotations.

Set Implicit Arguments.

(** ** The run-time library used by the service *)

Module JS.

(** A Node.js [Buffer] is a sequence of octets; a JavaScript string is a
    sequence of UTF-16 code units. *)
Definition Buffer := list byte.
Definition jsstring := list N.

(** String literals of the source, as code units and as octets.  All
    literals of the source are ASCII. *)
Definition lit (s : string) : jsstring :=
  map N_of_ascii (list_ascii_of_string s).

Definition bytes (s : string) : Buffer := list_byte_of_string s.

Definition dquote : N := 34%N.
Definition CR : N := 13%N.
Definition LF : N := 10%N.

Definition jsstring_eqb (a b : jsstring) : bool :=
  if list_eq_dec N.eq_dec a b then true else false.

Section Search.
Variable A : Type.
Variable eqb : A -> A -> bool.

(** [needle] is a prefix of [hay]. *)
Fixpoint startsWith (needle hay : list A) : bool :=
  match needle, hay with
  | [], _ => true
  | _ :: _, [] => false
  | x :: n', y :: h' => eqb x y && startsWith n' h'
  end.

(** Left-to-right scan of the suffixes of [hay]; [pos] is the index of the
    head of [hay] in the whole sequence. *)
Fixpoint indexOfFrom (needle hay : list A) (pos : nat) : option nat :=
  if startsWith needle hay then Some pos
  else match hay with
       | [] => None
       | _ :: t => indexOfFrom needle t (S pos)
       end.

(** Remove a literal prefix. *)
Fixpoint stripPrefix (needle hay : list A) : option (list A) :=
  match needle, hay with
  | [], _ => Some hay
  | _ :: _, [] => None
  | x :: n', y :: h' => if eqb x y then stripPrefix n' h' else None
  end.
End Search.

(** [buf.indexOf(value, byteOffset)]: index of the first occurrence of
    [value] at or after [byteOffset], [None] for -1.  An empty [value] is
    found at [byteOffset], or at [buf.length] when the offset is beyond the
    end. *)
Definition indexOf (buffer value : Buffer) (byteOffset : nat) : option nat :=
  indexOfFrom Byte.eqb value (skipn byteOffset buffer)
              (Nat.min byteOffset (length buffer)).

(** [buf.slice(start, end)] and [buf.slice(start)] for offsets within the
    buffer. *)
Definition slice (buffer : Buffer) (start stop : nat) : Buffer :=
  firstn (stop - start) (skipn start buffer).

Definition sliceFrom (buffer : Buffer) (start : nat) : Buffer :=
  skipn start buffer.

(** [str.includes(search)]. *)
Definition includes (str search : jsstring) : bool :=
  match indexOfFrom N.eqb search str 0 with
  | Some _ => true
  | None => false
  end.

(** *** Character classes of the regular expressions *)

(** [.] without the [s] flag: anything but a line terminator. *)
Definition isLineTerminator (c : N) : bool :=
  (c =? 10)%N || (c =? 13)%N || (c =? 8232)%N || (c =? 8233)%N.

Definition dot (c : N) : bool := negb (isLineTerminator c).

(** [\s], and the characters removed by [trim()]: WhiteSpace and
    LineTerminator of ECMAScript. *)
Definition isWhiteSpace (c : N) : bool :=
  ((9 <=? c) && (c <=? 13))%N || (c =? 32)%N || (c =? 160)%N
  || (c =? 5760)%N || ((8192 <=? c) && (c <=? 8202))%N
  || (c =? 8232)%N || (c =? 8233)%N || (c =? 8239)%N || (c =? 8287)%N
  || (c =? 12288)%N || (c =? 65279)%N.

(** The class excluding the double quote (code unit 34). *)
Definition notQuote (c : N) : bool := negb (c =? dquote)%N.

(** The class excluding carriage return and line feed. *)
Definition notCRLF (c : N) : bool := negb ((c =? CR) || (c =? LF))%N.

(** *** Regular expressions

    The three expressions of the source are sequences of literal text, a
    greedy starred class, one capturing group holding a greedy class-plus,
    and the end anchor.  [matchAt r s] matches [r] at the beginning of [s],
    longest repetition first with backtracking, and gives the text of
    group 1 (of the part of it matched so far). *)
Inductive atom : Type :=
| Chars (s : jsstring)
| Star (cls : N -> bool)
| Group1Plus (cls : N -> bool)
| EndOfInput.

Fixpoint matchAt (r : list atom) (s : jsstring) : option jsstring :=
  match r with
  | [] => Some []
  | Chars l :: r' =>
      match stripPrefix N.eqb l s with
      | Some s' => matchAt r' s'
      | None => None
      end
  | Star cls :: r' =>
      (fix star (s : jsstring) : option jsstring :=
         match s with
         | c :: t =>
             if cls c then
               match star t with
               | Some g => Some g
               | None => matchAt r' s
               end
             else matchAt r' s
         | [] => matchAt r' s
         end) s
  | Group1Plus cls :: r' =>
      (fix plus (s : jsstring) : option jsstring :=
         match s with
         | c :: t =>
             if cls c then
               match plus t with
               | Some g => Some (c :: g)
               | None =>
                   match matchAt r' t with
                   | Some _ => Some [c]
                   | None => None
                   end
               end
             else None
         | [] => None
         end) s
  | EndOfInput :: r' =>
      match s with
      | [] => matchAt r' s
      | _ :: _ => None
      end
  end.

(** [str.match(re)] for an expression without the [g] flag: the leftmost
    start position at which the expression matches; the result is
    [match[1]]. *)
Fixpoint regexMatch1 (r : list atom) (str : jsstring) : option jsstring :=
  match matchAt r str with
  | Some g => Some g
  | None =>
      match str with
      | [] => None
      | _ :: t => regexMatch1 r t
      end
  end.

(** [str.trim()]. *)
Fixpoint trimStart (s : jsstring) : jsstring :=
  match s with
  | c :: t => if isWhiteSpace c then trimStart t else s
  | [] => []
  end.

Definition trim (s : jsstring) : jsstring :=
  rev (trimStart (rev (trimStart s))).

(** [!str] and [a || b] on strings: the empty string is falsy. *)
Definition falsy (str : jsstring) : bool :=
  match str with
  | [] => true
  | _ :: _ => false
  end.

Definition orElse (a b : jsstring) : jsstring :=
  if falsy a then b else a.

(** Template-literal conversion of a non-negative integer. *)
Definition decimal (n : N) : jsstring :=
  lit (DecimalString.NilEmpty.string_of_uint (N.to_uint n)).

(** *** UTF-8

    [buf.toString()] decodes UTF-8 and replaces every maximal ill-formed
    subsequence by U+FFFD; [Buffer.from(str)] encodes UTF-8 and replaces
    every unpaired surrogate by U+FFFD. *)
Definition byteOfN (n : N) : byte :=
  match Byte.of_N (n mod 256) with
  | Some b => b
  | None => x00
  end.

Definition replacement : N := 0xFFFD%N.

Inductive utf8state : Type :=
| Start
| Pending (cp : N) (remaining : nat) (lower upper : N).

Definition inRange (lo hi c : N) : bool := ((lo <=? c) && (c <=? hi))%N.

(** A byte read when no sequence is open. *)
Definition startByte (b : N) : list N * utf8state :=
  if inRange 0x00 0x7F b then ([b], Start)
  else if inRange 0xC2 0xDF b then
    ([], Pending (N.land b 0x1F) 1 0x80 0xBF)
  else if inRange 0xE0 0xEF b then
    ([], Pending (N.land b 0xF) 2
                 (if (b =? 0xE0)%N then 0xA0%N else 0x80%N)
                 (if (b =? 0xED)%N then 0x9F%N else 0xBF%N))
  else if inRange 0xF0 0xF4 b then
    ([], Pending (N.land b 0x7) 3
                 (if (b =? 0xF0)%N then 0x90%N else 0x80%N)
                 (if (b =? 0xF4)%N then 0x8F%N else 0xBF%N))
  else ([replacement], Start).

Definition decodeStep (st : utf8state) (b : N) : list N * utf8state :=
  match st with
  | Start => startByte b
  | Pending cp remaining lower upper =>
      if inRange lower upper b then
        let cp' := N.lor (N.shiftl cp 6) (N.land b 0x3F) in
        match remaining with
        | S (S r) => ([], Pending cp' (S r) 0x80 0xBF)
        | _ => ([cp'], Start)
        end
      else
        let (out, st') := startByte b in (replacement :: out, st')
  end.

(** The code points of a byte sequence. *)
Fixpoint decodeFrom (st : utf8state) (bs : Buffer) : list N :=
  match bs with
  | [] =>
      match st with
      | Start => []
      | Pending _ _ _ _ => [replacement]
      end
  | b :: t =>
      let (out, st') := decodeStep st (Byte.to_N b) in
      out ++ decodeFrom st' t
  end.

(** The UTF-16 code units of a code point. *)
Definition utf16 (cp : N) : list N :=
  if (cp <? 0x10000)%N then [cp]
  else
    let v := (cp - 0x10000)%N in
    [(0xD800 + N.shiftr v 10)%N; (0xDC00 + N.land v 0x3FF)%N].

Definition toString (buffer : Buffer) : jsstring :=
  flat_map utf16 (decodeFrom Start buffer).

Definition isHighSurrogate (c : N) : bool := inRange 0xD800 0xDBFF c.
Definition isLowSurrogate (c : N) : bool := inRange 0xDC00 0xDFFF c.

Definition encodeCodePoint (cp : N) : Buffer :=
  if (cp <? 0x80)%N then [byteOfN cp]
  else if (cp <? 0x800)%N then
    [byteOfN (N.lor 0xC0 (N.shiftr cp 6));
     byteOfN (N.lor 0x80 (N.land cp 0x3F))]
  else if (cp <? 0x10000)%N then
    [byteOfN (N.lor 0xE0 (N.shiftr cp 12));
     byteOfN (N.lor 0x80 (N.land (N.shiftr cp 6) 0x3F));
     byteOfN (N.lor 0x80 (N.land cp 0x3F))]
  else
    [byteOfN (N.lor 0xF0 (N.shiftr cp 18));
     byteOfN (N.lor 0x80 (N.land (N.shiftr cp 12) 0x3F));
     byteOfN (N.lor 0x80 (N.land (N.shiftr cp 6) 0x3F));
     byteOfN (N.lor 0x80 (N.land cp 0x3F))].

(** [Buffer.from(str)]. *)
Fixpoint bufferFrom (str : jsstring) : Buffer :=
  match str with
  | [] => []
  | c :: t =>
      if isHighSurrogate c then
        match t with
        | d :: t' =>
            if isLowSurrogate d then
              encodeCodePoint
                (0x10000 + N.shiftl (c - 0xD800) 10 + (d - 0xDC00))%N
                ++ bufferFrom t'
            else encodeCodePoint replacement ++ bufferFrom t
        | [] => encodeCodePoint replacement
        end
      else if isLowSurrogate c then encodeCodePoint replacement ++ bufferFrom t
      else encodeCodePoint c ++ bufferFrom t
  end.

End JS.

(** ** The media service *)

Module MediaService.
Import JS.

(** The result of [parseMultipartFile]. *)
Record FileData : Type := {
  filename : jsstring;
  mimeType : jsstring;
  content : Buffer
}.

(** The request as the service reads it: [headers['content-type']],
    [body] and [user?.sub]; an absent property is [None]. *)
Record User : Type := { sub : option jsstring }.

Record FastifyRequest : Type := {
  contentTypeHeader : option jsstring;
  body : option Buffer;
  user : option User
}.

(** The exceptions of the service, one constructor per message
    (Content-Type must be multipart/form-data; No boundary found in
    multipart data; No file uploaded; File too large, with the configured
    maximum), and the exceptions of [writeFileSync] and of
    [prisma.media.create]. *)
Inductive Error : Type :=
| ContentTypeMustBeMultipart
| NoBoundaryFound
| NoFileUploaded
| FileTooLarge (maximum : option Z)
| WriteFailed
| CreateFailed.

(** The row created by [prisma.media.create]. *)
Record MediaRecord : Type := {
  id : jsstring;
  url : jsstring;
  recMimeType : jsstring;
  sizeBytes : nat;
  width : option Z;
  height : option Z;
  storageKey : jsstring;
  ownerUserId : jsstring
}.

(** What the methods change: the files under the upload directory and the
    media table.  The lines they print with [console.log] are left out. *)
Record World : Type := {
  files : list (jsstring * Buffer);
  media : list MediaRecord
}.

Inductive Outcome (A : Type) : Type :=
| Returned (a : A)
| Thrown (e : Error)
| Diverged.

Arguments Returned {A} a.
Arguments Thrown {A} e.
Arguments Diverged {A}.

(** An [async] method: a world transformer that returns, throws or does not
    terminate. *)
Definition M (A : Type) : Type := World -> Outcome A * World.

Definition ret {A : Type} (a : A) : M A := fun w => (Returned a, w).
Definition throw {A : Type} (e : Error) : M A := fun w => (Thrown e, w).
Definition diverge {A : Type} : M A := fun w => (Diverged, w).

Definition bind {A B : Type} (m : M A) (k : A -> M B) : M B :=
  fun w =>
    match m w with
    | (Returned a, w') => k a w'
    | (Thrown e, w') => (Thrown e, w')
    | (Diverged, w') => (Diverged, w')
    end.

Notation "x <- m ;; k" := (bind m (fun x => k))
  (at level 61, m at next level, right associativity).

(** *** [splitBuffer] *)

(** The [while] loop of [splitBuffer]; [index] and [start] are the loop
    variables, [parts] the array built so far. *)
Fixpoint splitLoop (fuel : nat) (buffer delimiter : Buffer)
  (start index : nat) (parts : list Buffer) : option (list Buffer) :=
  match fuel with
  | O => None
  | S fuel' =>
      if index <? length buffer then
        match indexOf buffer delimiter start with
        | None =>
            Some (if start <? length buffer
                  then parts ++ [sliceFrom buffer start]
                  else parts)
        | Some index' =>
            splitLoop fuel' buffer delimiter
              (index' + length delimiter) index'
              (if start <? index'
               then parts ++ [slice buffer start index']
               else parts)
        end
      else Some parts
  end.

(** [None] when the loop does not end within [buffer.length + 1] rounds. *)
Definition splitBuffer (buffer delimiter : Buffer) : option (list Buffer) :=
  splitLoop (S (length buffer)) buffer delimiter 0 0 [].

(** *** [parseMultipartFile] *)

Definition CRLFCRLF : jsstring := [CR; LF; CR; LF].

(** The expression boundary=(.+)$ *)
Definition reBoundary : list atom :=
  [Chars (lit "boundary="); Group1Plus dot; EndOfInput].

(** The expression filename=Q([^Q]+)Q, with Q the double quote. *)
Definition reFilename : list atom :=
  [Chars (lit "filename=" ++ [dquote]); Group1Plus notQuote; Chars [dquote]].

(** The expression Content-Type:\s*([^\r\n]+) *)
Definition reContentType : list atom :=
  [Chars (lit "Content-Type:"); Star isWhiteSpace; Group1Plus notCRLF].

(** The test that a part holds a file, and the two extractions made from
    its header section. *)
Definition isFilePart (headerSection : jsstring) : bool :=
  includes headerSection (lit "Content-Disposition: form-data")
  && includes headerSection (lit "filename=").

Definition extractFilename (headerSection : jsstring) : jsstring :=
  match regexMatch1 reFilename headerSection with
  | Some f => f
  | None => lit "unknown"
  end.

Definition defaultMimeType : jsstring := lit "application/octet-stream".

Definition extractMimeType (headerSection : jsstring) : jsstring :=
  match regexMatch1 reContentType headerSection with
  | Some m => trim m
  | None => defaultMimeType
  end.

(** One round of the loop over the parts: [None] is [continue]. *)
Definition parsePart (part : Buffer) : option FileData :=
  if length part =? 0 then None
  else
    match indexOf part (bufferFrom CRLFCRLF) 0 with
    | None => None
    | Some headerEndIndex =>
        let headerSection := toString (slice part 0 headerEndIndex) in
        let contentSection := sliceFrom part (headerEndIndex + 4) in
        if isFilePart headerSection then
          Some {| filename := extractFilename headerSection;
                  mimeType := extractMimeType headerSection;
                  content := contentSection |}
        else None
    end.

(** The loop over the parts: the first part that is returned. *)
Fixpoint scanParts (parts : list Buffer) : option FileData :=
  match parts with
  | [] => None
  | part :: rest =>
      match parsePart part with
      | Some fileData => Some fileData
      | None => scanParts rest
      end
  end.

(** The first statements of [parseMultipartFile]: the two checks of the
    content-type header and the boundary taken from it. *)
Definition extractBoundary (header : option jsstring) : Error + jsstring :=
  match header with
  | None => inl ContentTypeMustBeMultipart
  | Some contentType =>
      if falsy contentType
         || negb (includes contentType (lit "multipart/form-data"))
      then inl ContentTypeMustBeMultipart
      else
        match regexMatch1 reBoundary contentType with
        | None => inl NoBoundaryFound
        | Some boundary => inr boundary
        end
  end.

Definition parseMultipartFile (request : FastifyRequest)
  : M (option FileData) :=
  match extractBoundary (contentTypeHeader request) with
  | inl e => throw e
  | inr boundary =>
      match body request with
      | None => ret None
      | Some rawBody =>
          if length rawBody =? 0 then ret None
          else
            let boundaryBuffer := bufferFrom (lit "--" ++ boundary) in
            match splitBuffer rawBody boundaryBuffer with
            | None => diverge
            | Some parts => ret (scanParts parts)
            end
      end
  end.

(** *** The upload methods *)

(** The fields of a [MediaService] instance.  [maxFileSize] is the result
    of [parseInt]: an integer, or [None] for NaN. *)
Record Service : Type := {
  uploadDir : jsstring;
  maxFileSize : option Z;
  allowedMimeTypes : list jsstring
}.

(** What one call reads from its surroundings: [Date.now()], the nine
    characters kept of [Math.random().toString(36)], [process.env.BASE_URL],
    whether the file system and the database fail, and the id the database
    generates.  When the file system fails, [writtenBeforeThrow] tells where:
    [None] when the file could not be opened, [Some n] when it was opened
    and [n] bytes were written before the error. *)
Record Ambient : Type := {
  now : N;
  randomSuffix : jsstring;
  BASE_URL : option jsstring;
  writeThrows : bool;
  writtenBeforeThrow : option nat;
  createThrows : bool;
  generatedId : jsstring
}.

(** The value returned by [uploadFile]. *)
Record UploadResult : Type := {
  resId : jsstring;
  resUrl : jsstring;
  resMimeType : jsstring;
  resWidth : option Z;
  resHeight : option Z
}.

(** [length > maxFileSize]; a comparison with NaN is false. *)
Definition exceeds (len : nat) (limit : option Z) : bool :=
  match limit with
  | Some m => (m <? Z.of_nat len)%Z
  | None => false
  end.

(** [n || undefined] on an optional number: 0 is falsy. *)
Definition orUndefined (n : option Z) : option Z :=
  match n with
  | Some 0%Z => None
  | _ => n
  end.

(** [writeFileSync(filepath, data)] opens the file for writing, which
    creates or empties it, and then writes the bytes.  When it throws the
    file is untouched (the open failed) or holds the bytes written so far. *)
Definition writeFileSync (env : Ambient) (filepath : jsstring)
  (data : Buffer) : M unit :=
  fun w =>
    if writeThrows env then
      (Thrown WriteFailed,
       match writtenBeforeThrow env with
       | None => w
       | Some n => {| files := (filepath, firstn n data) :: files w;
                      media := media w |}
       end)
    else (Returned tt, {| files := (filepath, data) :: files w;
                          media := media w |}).

Definition getImageDimensions (filepath mimeType : jsstring)
  : M (option (Z * Z)) :=
  if startsWith N.eqb (lit "image/") mimeType then ret None else ret None.

(** [prisma.media.create({ data })]; [data] comes without its id. *)
Definition mediaCreate (env : Ambient) (data : MediaRecord) : M MediaRecord :=
  fun w =>
    if createThrows env then (Thrown CreateFailed, w)
    else
      let row := {| id := generatedId env;
                    url := url data;
                    recMimeType := recMimeType data;
                    sizeBytes := sizeBytes data;
                    width := width data;
                    height := height data;
                    storageKey := storageKey data;
                    ownerUserId := ownerUserId data |} in
      (Returned row, {| files := files w; media := media w ++ [row] |}).

Section Upload.

(** [path.extname] and [path.join] of Node.js. *)
Variable extname : jsstring -> jsstring.
Variable pathJoin : jsstring -> jsstring -> jsstring.

Definition defaultBaseUrl : jsstring := lit "http://localhost:4005".

Definition uploadAndCreateMedia (this : Service) (env : Ambient)
  (request : FastifyRequest) (userId : jsstring) : M MediaRecord :=
  parsed <- parseMultipartFile request ;;
  match parsed with
  | None => throw NoFileUploaded
  | Some fileData =>
      if exceeds (length (content fileData)) (maxFileSize this)
      then throw (FileTooLarge (maxFileSize this))
      else
        let timestamp := now env in
        let extension := extname (orElse (filename fileData) []) in
        let name :=
          decimal timestamp ++ lit "-" ++ randomSuffix env ++ extension in
        let filepath := pathJoin (uploadDir this) name in
        _ <- writeFileSync env filepath (content fileData) ;;
        stats <- getImageDimensions filepath (mimeType fileData) ;;
        let baseUrl :=
          match BASE_URL env with
          | Some u => orElse u defaultBaseUrl
          | None => defaultBaseUrl
          end in
        let fullUrl := baseUrl ++ lit "/uploads/" ++ name in
        row <- mediaCreate env
                 {| id := [];
                    url := fullUrl;
                    recMimeType := mimeType fileData;
                    sizeBytes := length (content fileData);
                    width := option_map fst stats;
                    height := option_map snd stats;
                    storageKey := name;
                    ownerUserId := userId |} ;;
        ret row
  end.

Definition uploadFile (this : Service) (env : Ambient)
  (request : FastifyRequest) : M UploadResult :=
  parsed <- parseMultipartFile request ;;
  match parsed with
  | None => throw NoFileUploaded
  | Some fileData =>
      if exceeds (length (content fileData)) (maxFileSize this)
      then throw (FileTooLarge (maxFileSize this))
      else
        let timestamp := now env in
        let extension := extname (orElse (filename fileData) []) in
        let name :=
          decimal timestamp ++ lit "-" ++ randomSuffix env ++ extension in
        let filepath := pathJoin (uploadDir this) name in
        _ <- writeFileSync env filepath (content fileData) ;;
        stats <- getImageDimensions filepath (mimeType fileData) ;;
        let baseUrl :=
          match BASE_URL env with
          | Some u => orElse u defaultBaseUrl
          | None => defaultBaseUrl
          end in
        let fullUrl := baseUrl ++ lit "/uploads/" ++ name in
        row <- mediaCreate env
                 {| id := [];
                    url := fullUrl;
                    recMimeType := mimeType fileData;
                    sizeBytes := length (content fileData);
                    width := option_map fst stats;
                    height := option_map snd stats;
                    storageKey := name;
                    ownerUserId :=
                      match user request with
                      | Some u =>
                          match sub u with
                          | Some s => orElse s (lit "anonymous")
                          | None => lit "anonymous"
                          end
                      | None => lit "anonymous"
                      end |} ;;
        ret {| resId := id row;
               resUrl := url row;
               resMimeType := recMimeType row;
               resWidth := orUndefined (width row);
               resHeight := orUndefined (height row) |}
  end.

End Upload.

End MediaService.

(** ** Notions of the specification *)

Module Spec.
Import JS MediaService.

(** [needle] occurs in [hay] at offset [i]. *)
Definition occursAt {A : Type} (needle hay : list A) (i : nat) : Prop :=
  exists pre post, hay = pre ++ needle ++ post /\ length pre = i.

(** The occurrence at [i] is the first one. *)
Definition firstAt {A : Type} (needle hay : list A) (i : nat) : Prop :=
  occursAt needle hay i /\ forall j, j < i -> ~ occursAt needle hay j.

Definition absent {A : Type} (needle hay : list A) : Prop :=
  forall j, ~ occursAt needle hay j.

(** A segment is emitted when it is not empty. *)
Definition emit (segment : Buffer) : list Buffer :=
  match segment with
  | [] => []
  | _ :: _ => [segment]
  end.

(** The Part Splitter in the words of the specification: locate the next
    occurrence of the delimiter; what lies before it is emitted when not
    empty; go on behind the delimiter; when there is no further occurrence
    the remainder is emitted when not empty. *)
Inductive Split (delimiter : Buffer) : Buffer -> list Buffer -> Prop :=
| Split_last (remainder : Buffer) :
    absent delimiter remainder ->
    Split delimiter remainder (emit remainder)
| Split_next (segment rest : Buffer) (parts : list Buffer) :
    firstAt delimiter (segment ++ delimiter ++ rest) (length segment) ->
    Split delimiter rest parts ->
    Split delimiter (segment ++ delimiter ++ rest) (emit segment ++ parts).

(** The error kinds of the specification. *)
Inductive ErrorKind : Type :=
| InvalidContentType
| NoFileFound
| PayloadTooLarge
| StorageWriteFailure
| PersistenceFailure.

Definition kindOf (e : Error) : ErrorKind :=
  match e with
  | ContentTypeMustBeMultipart => InvalidContentType
  | NoBoundaryFound => InvalidContentType
  | NoFileUploaded => NoFileFound
  | FileTooLarge _ => PayloadTooLarge
  | WriteFailed => StorageWriteFailure
  | CreateFailed => PersistenceFailure
  end.

(** The header accepts the boundary [b]: it reads [pre boundary= b] with
    [b] not empty and free of line terminators. *)
Definition boundaryParameter (contentType pre b : jsstring) : Prop :=
  contentType = pre ++ lit "boundary=" ++ b
  /\ b <> []
  /\ Forall (fun c => dot c = true) b.

Definition CRLFbytes : Buffer := [x0d; x0a].

(** The empty line between the headers of a part and its body. *)
Definition separator : Buffer := CRLFbytes ++ CRLFbytes.

(** A raw part qualifies as the uploaded file: it has a separator, and the
    text before the first one contains the form-data disposition and a
    filename attribute. *)
Definition fileBearing (part : Buffer) : Prop :=
  exists h b,
    part = h ++ separator ++ b
    /\ firstAt separator part (length h)
    /\ (exists i, occursAt (lit "Content-Disposition: form-data") (toString h) i)
    /\ (exists i, occursAt (lit "filename=") (toString h) i).

(** A multipart/form-data body with a single part (RFC 7578): the dash
    boundary, the header lines of the part, an empty line, the body of the
    part, and the closing delimiter on a line of its own. *)
Definition encodeSinglePart (boundary headers payload : Buffer) : Buffer :=
  bytes "--" ++ boundary ++ CRLFbytes
  ++ headers ++ CRLFbytes ++ CRLFbytes
  ++ payload
  ++ CRLFbytes ++ bytes "--" ++ boundary ++ bytes "--" ++ CRLFbytes.

(** An ASCII byte that is not an upper-case letter. *)
Definition lowerAscii (b : byte) : bool :=
  (Byte.to_N b <? 128)%N && negb (inRange 65 90 (Byte.to_N b)).

(** What stands between the two delimiters of such a body. *)
Definition rawPartOf (headers payload : Buffer) : Buffer :=
  CRLFbytes ++ headers ++ separator ++ payload ++ CRLFbytes.

(** The same with several parts, given as pairs of headers and body. *)
Fixpoint encodeParts (boundary : Buffer) (parts : list (Buffer * Buffer))
  : Buffer :=
  match parts with
  | [] => bytes "--" ++ boundary ++ bytes "--" ++ CRLFbytes
  | (headers, payload) :: rest =>
      bytes "--" ++ boundary ++ CRLFbytes
      ++ headers ++ CRLFbytes ++ CRLFbytes
      ++ payload ++ CRLFbytes
      ++ encodeParts boundary rest
  end.

End Spec.

(** ** Concrete requests *)

Module Scenarios.
Import JS MediaService Spec.

Definition quoteByte : Buffer := [x22].

(** A content-type header whose boundary parameter has no value. *)
Definition headerEmptyBoundary : jsstring :=
  lit "multipart/form-data; boundary=".

Definition headerX : jsstring := lit "multipart/form-data; boundary=X".

Definition emptyWorld : World := {| files := []; media := [] |}.

(** The disposition header of a file field with the given file name. *)
Definition dispositionFile (name : string) : Buffer :=
  bytes "Content-Disposition: form-data; name=" ++ quoteByte
  ++ bytes "file" ++ quoteByte
  ++ bytes "; filename=" ++ quoteByte ++ bytes name ++ quoteByte.

(** Scenario A: boundary X, one part a.png of type image/png, 37 bytes. *)
Definition headersA : Buffer :=
  dispositionFile "a.png" ++ CRLFbytes ++ bytes "Content-Type: image/png".

Definition payload37 : Buffer :=
  map (fun n => byteOfN (N.of_nat (7 * n + 128))) (seq 0 37).

Definition bodyA : Buffer := encodeSinglePart (bytes "X") headersA payload37.

Definition requestOf (contentType : jsstring) (rawBody : Buffer)
  : FastifyRequest :=
  {| contentTypeHeader := Some contentType;
     body := Some rawBody;
     user := None |}.

Definition requestA : FastifyRequest := requestOf headerX bodyA.

(** The raw part of scenario A as the splitter cuts it. *)
Definition partA : Buffer :=
  CRLFbytes ++ headersA ++ separator ++ payload37 ++ CRLFbytes.

(** A file field left empty by the browser, followed by a file b.png. *)
Definition headersEmptyName : Buffer :=
  dispositionFile "" ++ CRLFbytes
  ++ bytes "Content-Type: application/octet-stream".

Definition headersB : Buffer :=
  dispositionFile "b.png" ++ CRLFbytes ++ bytes "Content-Type: image/png".

Definition bodyEmptyNameThenB : Buffer :=
  encodeParts (bytes "X") [(headersEmptyName, []); (headersB, bytes "B")].

(** Two files in one body. *)
Definition bodyTwoFiles : Buffer :=
  encodeParts (bytes "X")
    [(headersA, bytes "first"); (headersB, bytes "second")].

(** Scenario C: a lone caption field. *)
Definition headersCaption : Buffer :=
  bytes "Content-Disposition: form-data; name=" ++ quoteByte
  ++ bytes "caption" ++ quoteByte.

Definition bodyCaption : Buffer :=
  encodeSinglePart (bytes "X") headersCaption (bytes "hello").

Definition partCaption : Buffer :=
  CRLFbytes ++ headersCaption ++ separator ++ bytes "hello" ++ CRLFbytes.

(** The part of scenario A with its header names in lower case. *)
Definition headersLower : Buffer :=
  bytes "content-disposition: form-data; name=" ++ quoteByte
  ++ bytes "file" ++ quoteByte
  ++ bytes "; filename=" ++ quoteByte ++ bytes "a.png" ++ quoteByte
  ++ CRLFbytes ++ bytes "content-type: image/png".

Definition partLower : Buffer :=
  CRLFbytes ++ headersLower ++ separator ++ payload37 ++ CRLFbytes.

(** The disposition in its usual case, the content type in lower case. *)
Definition headersLowerType : Buffer :=
  dispositionFile "a.png" ++ CRLFbytes ++ bytes "content-type: image/png".

Definition partLowerType : Buffer :=
  CRLFbytes ++ headersLowerType ++ separator ++ payload37 ++ CRLFbytes.

(** A service with the default settings, one with a limit of 36 bytes and
    one that allows no MIME type at all. *)
Definition defaultService : Service :=
  {| uploadDir := lit "./uploads";
     maxFileSize := Some 10485760%Z;
     allowedMimeTypes :=
       [lit "image/jpeg"; lit "image/png"; lit "image/webp"; lit "video/mp4"] |}.

Definition tinyService : Service :=
  {| uploadDir := lit "./uploads";
     maxFileSize := Some 36%Z;
     allowedMimeTypes := allowedMimeTypes defaultService |}.

(** The default settings with an allow-list that holds video/mp4 only. *)
Definition videoOnlyService : Service :=
  {| uploadDir := uploadDir defaultService;
     maxFileSize := maxFileSize defaultService;
     allowedMimeTypes := [lit "video/mp4"] |}.

Definition quietEnv : Ambient :=
  {| now := 1700000000000%N;
     randomSuffix := lit "k3j9x0q2z";
     BASE_URL := None;
     writeThrows := false;
     writtenBeforeThrow := None;
     createThrows := false;
     generatedId := lit "cm1" |}.

(** Stand-ins for [path.extname] and [path.join], used only to run the
    methods on the concrete requests below; the theorems hold for every
    pair of functions.  They give the text from the last dot on, and the
    two names joined by a slash: unlike Node.js they do not normalise the
    path (a leading ./ stays), and they take a name that begins with its
    only dot, or a dot in a directory name, for an extension. *)
Fixpoint lastDot (s : jsstring) : option jsstring :=
  match s with
  | [] => None
  | c :: t =>
      match lastDot t with
      | Some e => Some e
      | None => if (c =? 46)%N then Some s else None
      end
  end.

Definition simpleExtname (s : jsstring) : jsstring :=
  match lastDot s with
  | Some e => e
  | None => []
  end.

Definition simpleJoin (dir name : jsstring) : jsstring :=
  dir ++ lit "/" ++ name.

End Scenarios.

(** ** The methods on the join table of posts and media *)

Module MediaLinks.
Import JS MediaService.

(** A row of the PostMedia table, with the three fields the service writes
    and reads. *)
Record PostMedia : Type := {
  pmPostId : jsstring;
  pmMediaId : jsstring;
  pmOrder : nat
}.

(** The database.  The media table is the one of the upload methods; of a
    post only the id is read. *)
Record Store : Type := {
  world : World;
  posts : list jsstring;
  postMedia : list PostMedia
}.

(** The exceptions of [associateMediaWithPost] (Post ... not found; No
    valid media IDs provided), and the TypeError of reading [pm.media.id]
    on a row whose media is null. *)
Inductive LinkError : Type :=
| PostNotFound (postId : jsstring)
| NoValidMediaIds
| MediaIsNull.

(** The value returned by [associateMediaWithPost]. *)
Record Association : Type := {
  success : bool;
  associationsCreated : nat;
  mediaIds : list jsstring
}.

(** The object built from a media row by [createMediaRecord] and
    [getPostMedia]. *)
Definition toResponse (row : MediaRecord) : UploadResult :=
  {| resId := id row;
     resUrl := url row;
     resMimeType := recMimeType row;
     resWidth := orUndefined (width row);
     resHeight := orUndefined (height row) |}.


(** [where: { id: { in: mediaIds } }] *)
Definition idIn (ids : list jsstring) (m : MediaRecord) : bool :=
  existsb (jsstring_eqb (id m)) ids.

(** [existingMedia.map((media, index) => ({ postId, mediaId: media.id,
    order: index }))], from the index [index] on. *)
Fixpoint junctionRows (index : nat) (postId : jsstring)
  (existingMedia : list MediaRecord) : list PostMedia :=
  match existingMedia with
  | [] => []
  | m :: rest =>
      {| pmPostId := postId; pmMediaId := id m; pmOrder := index |}
      :: junctionRows (S index) postId rest
  end.

(** [orderBy: { order: 'asc' }]; rows of equal order keep their order. *)
Fixpoint insertByOrder (r : PostMedia) (sorted : list PostMedia)
  : list PostMedia :=
  match sorted with
  | [] => [r]
  | x :: t =>
      if pmOrder x <? pmOrder r then x :: insertByOrder r t
      else r :: sorted
  end.

Definition orderByOrderAsc (rows : list PostMedia) : list PostMedia :=
  fold_right insertByOrder [] rows.

(** [include: { media: true }]: the media row of each join row; [None]
    when a row has none. *)
Fixpoint includeMedia (table : list MediaRecord) (rows : list PostMedia)
  : option (list MediaRecord) :=
  match rows with
  | [] => Some []
  | r :: rest =>
      match find (fun m => jsstring_eqb (id m) (pmMediaId r)) table,
            includeMedia table rest with
      | Some m, Some ms => Some (m :: ms)
      | _, _ => None
      end
  end.

Definition getPostMedia (postId : jsstring) (s : Store)
  : LinkError + list UploadResult :=
  match includeMedia (media (world s))
          (orderByOrderAsc
             (filter (fun r => jsstring_eqb (pmPostId r) postId)
                     (postMedia s))) with
  | Some ms => inr (map toResponse ms)
  | None => inl MediaIsNull
  end.

Section Database.

(** What the schema and the database decide, and the source does not: the
    order in which [findMany] without [orderBy] returns the rows it
    selects, and which rows of PostMedia violate a unique constraint
    together. *)
Variable arrange : list MediaRecord -> list MediaRecord.
Variable conflicts : PostMedia -> PostMedia -> bool.

(** [createMany({ data, skipDuplicates: true })]: the rows are inserted
    one after the other, a row in conflict with one that is there is left
    out; the result is the number of rows inserted. *)
Fixpoint createManySkipDuplicates (rows table : list PostMedia)
  : nat * list PostMedia :=
  match rows with
  | [] => (0, table)
  | r :: rest =>
      if existsb (conflicts r) table then createManySkipDuplicates rest table
      else
        let (count, table') := createManySkipDuplicates rest (table ++ [r]) in
        (S count, table')
  end.

Definition associateMediaWithPost (postId : jsstring)
  (requested : list jsstring) (s : Store)
  : (LinkError + Association) * Store :=
  if existsb (jsstring_eqb postId) (posts s) then
    let existingMedia :=
      arrange (filter (idIn requested) (media (world s))) in
    if length existingMedia =? 0 then (inl NoValidMediaIds, s)
    else
      let (count, table) :=
        createManySkipDuplicates (junctionRows 0 postId existingMedia)
          (postMedia s) in
      (inr {| success := true;
              associationsCreated := count;
              mediaIds := map (@id) existingMedia |},
       {| world := world s; posts := posts s; postMedia := table |})
  else (inl (PostNotFound postId), s).

End Database.

End MediaLinks.

(** ** Observations on outcomes and buffers *)

Module Observations.
Import JS MediaService Spec.

(** The outcome is the File too large error. *)
Definition isTooLarge {A : Type} (o : Outcome A) : bool :=
  match o with
  | Thrown (FileTooLarge _) => true
  | _ => false
  end.

(** [part] is a run of consecutive bytes of [buffer]. *)
Definition isSliceOf (part buffer : Buffer) : Prop :=
  exists pre post, buffer = pre ++ part ++ post.

Definition totalLength (parts : list Buffer) : nat :=
  list_sum (map (@length byte) parts).

(** In the header text [hs], behind [pre], stands filename= and, between
    double quotes, the text [g], which is not empty and holds no double
    quote. *)
Definition quotedFilename (hs pre g post : jsstring) : Prop :=
  hs = pre ++ (lit "filename=" ++ [dquote]) ++ g ++ [dquote] ++ post
  /\ g <> []
  /\ Forall (fun c => notQuote c = true) g.

(** In the header text [hs], behind [pre], stands Content-Type:, then the
    white space [ws], then the text [g], which is not empty, holds neither
    CR nor LF and runs to the end of the text or up to a CR or LF. *)
Definition contentTypeLine (hs pre ws g post : jsstring) : Prop :=
  hs = pre ++ lit "Content-Type:" ++ ws ++ g ++ post
  /\ Forall (fun c => isWhiteSpace c = true) ws
  /\ g <> []
  /\ Forall (fun c => notCRLF c = true) g
  /\ notCRLF (hd CR post) = false.

(** The lines of a header text, cut at each CR LF; [line] holds the
    current line, last code unit first. *)
Fixpoint linesOf (line : jsstring) (text : jsstring) : list jsstring :=
  match text with
  | [] => [rev line]
  | c :: t =>
      match t with
      | d :: t' =>
          if ((c =? CR) && (d =? LF))%N then rev line :: linesOf [] t'
          else linesOf (c :: line) t
      | [] => [rev (c :: line)]
      end
  end.

(** The name of a header line: what stands before its first colon. *)
Fixpoint nameOf (line : jsstring) : jsstring :=
  match line with
  | [] => []
  | c :: t => if (c =? 58)%N then [] else c :: nameOf t
  end.

(** The names of the header fields of a header text. *)
Definition fieldNames (text : jsstring) : list jsstring :=
  map nameOf (filter (fun l => negb (falsy l)) (linesOf [] text)).

(** The last code unit of a string. *)
Definition lastUnit (s : jsstring) : option N := hd_error (rev s).

(** The code unit is absent or not white space. *)
Definition notWhite (c : option N) : bool :=
  match c with
  | Some x => negb (isWhiteSpace x)
  | None => true
  end.

End Observations.

(** ** Further concrete requests and stores *)

Module MoreScenarios.
Import JS MediaService Spec Scenarios MediaLinks.

(** A file whose bytes hold the delimiter of boundary X: what stands
    before the headers' empty line, what is taken as content, and what
    follows the delimiter inside the file. *)
Definition headOfCut : Buffer := CRLFbytes ++ headersA.
Definition takenOfCut : Buffer := bytes "ab".
Definition restOfCut : Buffer :=
  bytes "cd" ++ CRLFbytes ++ bytes "--X--" ++ CRLFbytes.

(** A part with a disposition header and a header X-Content-Type, and
    none named Content-Type. *)
Definition headersLooseType : Buffer :=
  dispositionFile "a.png" ++ CRLFbytes ++ bytes "X-Content-Type: text/evil".

Definition partLooseType : Buffer :=
  CRLFbytes ++ headersLooseType ++ separator ++ payload37 ++ CRLFbytes.

(** The disk is full after ten bytes of the write; the database refuses
    the row. *)
Definition diskFullEnv : Ambient :=
  {| now := now quietEnv;
     randomSuffix := randomSuffix quietEnv;
     BASE_URL := None;
     writeThrows := true;
     writtenBeforeThrow := Some 10;
     createThrows := false;
     generatedId := generatedId quietEnv |}.

Definition databaseDownEnv : Ambient :=
  {| now := now quietEnv;
     randomSuffix := randomSuffix quietEnv;
     BASE_URL := Some (lit "https://cdn.example.org");
     writeThrows := false;
     writtenBeforeThrow := None;
     createThrows := true;
     generatedId := generatedId quietEnv |}.

Definition cdnEnv : Ambient :=
  {| now := now quietEnv;
     randomSuffix := randomSuffix quietEnv;
     BASE_URL := Some (lit "https://cdn.example.org");
     writeThrows := false;
     writtenBeforeThrow := None;
     createThrows := false;
     generatedId := generatedId quietEnv |}.

(** Three media rows and a store with two posts and no link. *)
Definition mediaRow (key mime owner : string) : MediaRecord :=
  {| id := lit key;
     url := lit "http://localhost:4005/uploads/" ++ lit key;
     recMimeType := lit mime;
     sizeBytes := 10;
     width := None;
     height := None;
     storageKey := lit key;
     ownerUserId := lit owner |}.

Definition threeMedia : list MediaRecord :=
  [mediaRow "m1" "image/png" "alice";
   mediaRow "m2" "image/jpeg" "bob";
   mediaRow "m3" "video/mp4" "alice"].

Definition smallStore : Store :=
  {| world := {| files := []; media := threeMedia |};
     posts := [lit "p1"; lit "p2"];
     postMedia := [] |}.

(** A database that returns rows in table order, and a PostMedia table
    whose key is the pair of post and media. *)
Definition tableOrder (rows : list MediaRecord) : list MediaRecord := rows.

Definition samePair (a b : PostMedia) : bool :=
  jsstring_eqb (pmPostId a) (pmPostId b)
  && jsstring_eqb (pmMediaId a) (pmMediaId b).

End MoreScenarios.

(** ** Facts about the run-time library *)

Import JS MediaService Spec Scenarios.

(** A closed equation between values, settled by running both sides. *)
Ltac by_evaluation := vm_compute; reflexivity.

Section SearchFacts.
Variable A : Type.
Variable eqb : A -> A -> bool.
Hypothesis eqb_eq : forall x y, eqb x y = true <-> x = y.

Lemma startsWith_iff (needle hay : list A) :
  startsWith eqb needle hay = true <-> exists post, hay = needle ++ post.
Proof.
  revert hay; induction needle as [|x n IH]; intros hay; simpl.
  - split; [intros _; now exists hay | reflexivity].
  - destruct hay as [|y h].
    + split; [discriminate | intros [post H]; discriminate].
    + rewrite andb_true_iff, eqb_eq, IH. split.
      * intros [-> [post ->]]. now exists post.
      * intros [post H]. injection H as -> ->. split; [reflexivity | now exists post].
Qed.

Lemma occursAt_0 (needle hay : list A) :
  occursAt needle hay 0 <-> exists post, hay = needle ++ post.
Proof.
  split.
  - intros (pre & post & -> & Hl). destruct pre; [|discriminate]. now exists post.
  - intros [post ->]. now exists [], post.
Qed.

Lemma occursAt_S (needle : list A) (x : A) (hay : list A) (j : nat) :
  occursAt needle (x :: hay) (S j) <-> occursAt needle hay j.
Proof.
  split.
  - intros (pre & post & H & Hl). destruct pre as [|y pre]; [discriminate|].
    simpl in H, Hl. injection H as -> ->. exists pre, post. split; [reflexivity | lia].
  - intros (pre & post & -> & Hl). exists (x :: pre), post. split; [reflexivity | simpl; lia].
Qed.

Lemma occursAt_bound (needle hay : list A) (j : nat) :
  occursAt needle hay j -> j + length needle <= length hay.
Proof.
  intros (pre & post & -> & <-). rewrite !length_app. lia.
Qed.

Lemma occursAt_split (needle hay : list A) (j : nat) :
  occursAt needle hay j ->
  hay = firstn j hay ++ needle ++ skipn (j + length needle) hay.
Proof.
  intros (pre & post & -> & <-).
  rewrite firstn_app, Nat.sub_diag, firstn_all, firstn_O, app_nil_r.
  rewrite skipn_app, skipn_all2 by lia.
  replace (length pre + length needle - length pre) with (length needle) by lia.
  rewrite skipn_app, skipn_all, Nat.sub_diag. reflexivity.
Qed.

Lemma indexOfFrom_Some (needle hay : list A) (p i : nat) :
  indexOfFrom eqb needle hay p = Some i ->
  exists k, i = p + k /\ firstAt needle hay k.
Proof.
  revert p; induction hay as [|x h IH]; intros p; simpl.
  - destruct (startsWith eqb needle []) eqn:E; [|discriminate].
    intros [= <-]. exists 0. split; [lia|]. split.
    + now apply occursAt_0, startsWith_iff.
    + intros j Hj; lia.
  - destruct (startsWith eqb needle (x :: h)) eqn:E.
    + intros [= <-]. exists 0. split; [lia|]. split.
      * now apply occursAt_0, startsWith_iff.
      * intros j Hj; lia.
    + intros H. apply IH in H as (k & -> & Hk & Hmin).
      exists (S k). split; [lia|]. split.
      * now apply occursAt_S.
      * intros [|j] Hj.
        -- rewrite occursAt_0, <- startsWith_iff. congruence.
        -- rewrite occursAt_S. apply Hmin. lia.
Qed.

Lemma indexOfFrom_None (needle hay : list A) (p : nat) :
  indexOfFrom eqb needle hay p = None -> absent needle hay.
Proof.
  revert p; induction hay as [|x h IH]; intros p; simpl.
  - destruct (startsWith eqb needle []) eqn:E; [discriminate|].
    intros _ j Hj. pose proof (occursAt_bound Hj) as Hb. simpl in Hb.
    assert (j = 0) as -> by lia.
    apply occursAt_0, startsWith_iff in Hj. congruence.
  - destruct (startsWith eqb needle (x :: h)) eqn:E; [discriminate|].
    intros H [|j].
    + rewrite occursAt_0, <- startsWith_iff. congruence.
    + rewrite occursAt_S. exact (IH _ H j).
Qed.

Lemma firstAt_unique (needle hay : list A) (i j : nat) :
  firstAt needle hay i -> firstAt needle hay j -> i = j.
Proof.
  intros [Hi Hmi] [Hj Hmj].
  destruct (Nat.lt_trichotomy i j) as [H | [H | H]]; [|assumption|].
  - exfalso. exact (Hmj i H Hi).
  - exfalso. exact (Hmi j H Hj).
Qed.

Lemma firstAt_indexOfFrom (needle hay : list A) (p k : nat) :
  firstAt needle hay k -> indexOfFrom eqb needle hay p = Some (p + k).
Proof.
  intros Hk. destruct (indexOfFrom eqb needle hay p) as [i|] eqn:E.
  - apply indexOfFrom_Some in E as (k' & -> & Hk').
    now rewrite (firstAt_unique Hk Hk').
  - apply indexOfFrom_None in E. destruct Hk as [Hk _]. now apply E in Hk.
Qed.

Lemma absent_indexOfFrom (needle hay : list A) (p : nat) :
  absent needle hay -> indexOfFrom eqb needle hay p = None.
Proof.
  intros Ha. destruct (indexOfFrom eqb needle hay p) as [i|] eqn:E; [|reflexivity].
  apply indexOfFrom_Some in E as (k & _ & Hk & _). now apply Ha in Hk.
Qed.

Lemma stripPrefix_iff (needle hay rest : list A) :
  stripPrefix eqb needle hay = Some rest <-> hay = needle ++ rest.
Proof.
  revert hay; induction needle as [|x n IH]; intros hay; simpl.
  - split; [now intros [= ->] | now intros ->].
  - destruct hay as [|y h].
    + split; discriminate.
    + destruct (eqb x y) eqn:E.
      * apply eqb_eq in E as ->. rewrite IH. split; [now intros -> | now intros [= ->]].
      * split; [discriminate|]. intros [= -> _].
        assert (eqb x x = true) by now apply eqb_eq. congruence.
Qed.

End SearchFacts.

Lemma byte_eqb_eq (x y : byte) : Byte.eqb x y = true <-> x = y.
Proof.
  split; [apply Byte.byte_dec_bl | apply Byte.byte_dec_lb].
Qed.

Lemma indexOf_Some (buffer value : Buffer) (start i : nat) :
  start <= length buffer ->
  indexOf buffer value start = Some i ->
  exists k, i = start + k /\ firstAt value (skipn start buffer) k.
Proof.
  unfold indexOf. intros Hs H. rewrite Nat.min_l in H by assumption.
  exact (indexOfFrom_Some _ byte_eqb_eq _ _ _ H).
Qed.

Lemma indexOf_None (buffer value : Buffer) (start : nat) :
  indexOf buffer value start = None -> absent value (skipn start buffer).
Proof.
  unfold indexOf. apply (indexOfFrom_None _ byte_eqb_eq).
Qed.

Lemma firstAt_indexOf (buffer value : Buffer) (k : nat) :
  firstAt value buffer k -> indexOf buffer value 0 = Some k.
Proof.
  intros H. unfold indexOf. simpl.
  exact (firstAt_indexOfFrom _ byte_eqb_eq 0 H).
Qed.

Lemma absent_indexOf (buffer value : Buffer) :
  absent value buffer -> indexOf buffer value 0 = None.
Proof.
  intros H. unfold indexOf. simpl. exact (absent_indexOfFrom _ byte_eqb_eq 0 H).
Qed.

(** ** Facts about the splitter *)

Lemma emit_nonempty (segment : Buffer) :
  Forall (fun p => p <> []) (emit segment).
Proof.
  destruct segment; simpl; constructor; [discriminate | constructor].
Qed.

Lemma Split_nonempty (delimiter buffer : Buffer) (parts : list Buffer) :
  Split delimiter buffer parts -> Forall (fun p => p <> []) parts.
Proof.
  induction 1 as [r _ | seg rest ps _ _ IH].
  - apply emit_nonempty.
  - apply Forall_app. split; [apply emit_nonempty | exact IH].
Qed.

Lemma Split_inv (delimiter buffer : Buffer) (qs : list Buffer) :
  Split delimiter buffer qs ->
  (absent delimiter buffer /\ qs = emit buffer)
  \/ (exists seg rest ps,
        buffer = seg ++ delimiter ++ rest
        /\ firstAt delimiter buffer (length seg)
        /\ Split delimiter rest ps
        /\ qs = emit seg ++ ps).
Proof.
  destruct 1 as [r Ha | seg rest ps Hf Hs].
  - left. now split.
  - right. exists seg, rest, ps. repeat split; assumption || reflexivity || apply Hf.
Qed.

Lemma app_eq_length (X : Type) (a b c d : list X) :
  a ++ b = c ++ d -> length a = length c -> a = c /\ b = d.
Proof.
  revert c; induction a as [|x a IH]; intros [|y c] H Hl; try discriminate.
  - now split.
  - simpl in H. injection H as -> H. simpl in Hl.
    destruct (IH c H) as [-> ->]; [lia | now split].
Qed.

Lemma Split_functional (delimiter buffer : Buffer) (ps qs : list Buffer) :
  Split delimiter buffer ps -> Split delimiter buffer qs -> ps = qs.
Proof.
  intros H; revert qs.
  induction H as [r Ha | seg rest ps Hf _ IH]; intros qs Hq;
    apply Split_inv in Hq
      as [[Ha' ->] | (seg' & rest' & qs' & Eb & Hf' & Hq' & ->)].
  - reflexivity.
  - destruct Hf' as [Ho _]. now apply Ha in Ho.
  - destruct Hf as [Ho _]. now apply Ha' in Ho.
  - pose proof (firstAt_unique Hf Hf') as El.
    destruct (app_eq_length _ _ _ _ Eb El) as [<- Er].
    apply app_inv_head in Er as <-.
    f_equal. now apply IH.
Qed.

Lemma skipn_nil_iff (buffer : Buffer) (start : nat) :
  start <= length buffer ->
  (start <? length buffer) = true <-> skipn start buffer <> [].
Proof.
  intros Hs. rewrite Nat.ltb_lt. split.
  - intros Hlt E. apply (f_equal (@length byte)) in E.
    rewrite length_skipn in E. simpl in E. lia.
  - intros Hne. destruct (Nat.eq_dec start (length buffer)) as [->|]; [|lia].
    now rewrite skipn_all in Hne.
Qed.

Lemma emit_if (segment : Buffer) (parts : list Buffer) (b : bool) :
  (b = true <-> segment <> []) ->
  (if b then parts ++ [segment] else parts) = parts ++ emit segment.
Proof.
  intros H. destruct b, segment as [|x s]; simpl.
  - exfalso. now apply (proj1 H).
  - reflexivity.
  - now rewrite app_nil_r.
  - assert (false = true) by (apply H; discriminate). discriminate.
Qed.

(** The loop refines the splitter of the specification, given enough fuel
    for the bytes that remain. *)
Lemma splitLoop_Split (fuel : nat) (buffer delimiter : Buffer)
  (start index : nat) (parts : list Buffer) :
  delimiter <> [] ->
  start <= length buffer ->
  index < length buffer ->
  length buffer - start < fuel ->
  exists ps,
    splitLoop fuel buffer delimiter start index parts = Some (parts ++ ps)
    /\ Split delimiter (skipn start buffer) ps.
Proof.
  intros Hd. revert start index parts.
  induction fuel as [|fuel IH]; intros start index parts Hs Hi Hf; [lia|].
  simpl. apply Nat.ltb_lt in Hi as Hi'. rewrite Hi'.
  destruct (indexOf buffer delimiter start) as [index'|] eqn:E.
  - apply indexOf_Some in E as (k & -> & Hk); [|assumption].
    pose proof Hk as [Ho _]. pose proof (occursAt_bound Ho) as Hb.
    pose proof (occursAt_split Ho) as Hsplit.
    rewrite length_skipn in Hb.
    assert (length delimiter > 0) by (destruct delimiter; [congruence | simpl; lia]).
    destruct (IH (start + k + length delimiter) (start + k)
                 (if start <? start + k
                  then parts ++ [slice buffer start (start + k)] else parts))
      as (ps & Hps & Hsp); [lia | lia | lia |].
    rewrite Hps. unfold slice.
    replace (start + k - start) with k by lia.
    rewrite (@emit_if (firstn k (skipn start buffer)) parts (start <? start + k)).
    + exists (emit (firstn k (skipn start buffer)) ++ ps).
      split; [now rewrite app_assoc|].
      rewrite Hsplit at 1.
      replace (skipn (k + length delimiter) (skipn start buffer))
        with (skipn (start + k + length delimiter) buffer)
        by (rewrite skipn_skipn; f_equal; lia).
      apply Split_next; [|exact Hsp].
      replace (skipn (start + k + length delimiter) buffer)
        with (skipn (k + length delimiter) (skipn start buffer))
        by (rewrite skipn_skipn; f_equal; lia).
      rewrite <- Hsplit, length_firstn, length_skipn.
      now replace (Nat.min k (length buffer - start)) with k by lia.
    + rewrite Nat.ltb_lt. split.
      * intros Hlt Hnil. apply (f_equal (@length byte)) in Hnil.
        rewrite length_firstn, length_skipn in Hnil. simpl in Hnil. lia.
      * intros Hne. destruct k; [now rewrite firstn_O in Hne | lia].
  - apply indexOf_None in E. unfold sliceFrom.
    rewrite (@emit_if (skipn start buffer) parts (start <? length buffer))
      by now apply skipn_nil_iff.
    exists (emit (skipn start buffer)). split; [reflexivity|].
    now apply Split_last.
Qed.

Lemma splitBuffer_Split (buffer delimiter : Buffer) :
  delimiter <> [] ->
  exists ps, splitBuffer buffer delimiter = Some ps /\ Split delimiter buffer ps.
Proof.
  intros Hd. destruct buffer as [|b buffer].
  - exists []. split; [reflexivity|].
    apply (Split_last (delimiter := delimiter) (remainder := [])).
    intros j Hj. apply occursAt_bound in Hj. simpl in Hj.
    destruct delimiter; [congruence | simpl in Hj; lia].
  - unfold splitBuffer.
    destruct (@splitLoop_Split (S (length (b :: buffer))) (b :: buffer)
                delimiter 0 0 [] Hd) as (ps & Hps & Hsp); simpl; try lia.
    exists ps. split; assumption.
Qed.

Lemma bufferFrom_dashes (boundary : jsstring) :
  bufferFrom (lit "--" ++ boundary) = x2d :: x2d :: bufferFrom boundary.
Proof. reflexivity. Qed.

(** ** The Part Splitter *)

(** C5.  For every body and boundary, [splitBuffer] applied to the body and
    the delimiter made of two dashes and the boundary terminates with the
    parts that the single left-to-right pass of the specification yields
    (each non-empty segment before the next occurrence of the delimiter, in
    order, then the non-empty remainder after the last occurrence), and with
    no other list; no emitted part is empty; and an empty body yields no
    part. *)
Theorem splitBuffer_single_pass (body : Buffer) (boundary : jsstring) :
  exists parts,
    splitBuffer body (bufferFrom (lit "--" ++ boundary)) = Some parts
    /\ Split (bufferFrom (lit "--" ++ boundary)) body parts
    /\ (forall other,
           Split (bufferFrom (lit "--" ++ boundary)) body other ->
           other = parts)
    /\ Forall (fun p => p <> []) parts
    /\ splitBuffer [] (bufferFrom (lit "--" ++ boundary)) = Some [].
Proof.
  destruct (@splitBuffer_Split body (bufferFrom (lit "--" ++ boundary)))
    as (parts & Hrun & Hsplit).
  - rewrite bufferFrom_dashes. discriminate.
  - exists parts. repeat split.
    + exact Hrun.
    + exact Hsplit.
    + intros other Ho. exact (Split_functional Ho Hsplit).
    + exact (Split_nonempty Hsplit).
Qed.

(** ** Facts about the regular expressions *)

Lemma matchAt_chars (l : jsstring) (r : list atom) (s : jsstring) :
  matchAt (Chars l :: r) s =
  match stripPrefix N.eqb l s with
  | Some s' => matchAt r s'
  | None => None
  end.
Proof. reflexivity. Qed.

Lemma matchAt_plus_nil (cls : N -> bool) (r : list atom) :
  matchAt (Group1Plus cls :: r) [] = None.
Proof. reflexivity. Qed.

Lemma matchAt_plus_cons (cls : N -> bool) (r : list atom) (c : N)
  (t : jsstring) :
  matchAt (Group1Plus cls :: r) (c :: t) =
  if cls c then
    match matchAt (Group1Plus cls :: r) t with
    | Some g => Some (c :: g)
    | None =>
        match matchAt r t with
        | Some _ => Some [c]
        | None => None
        end
    end
  else None.
Proof. reflexivity. Qed.

Lemma matchAt_star_nil (cls : N -> bool) (r : list atom) :
  matchAt (Star cls :: r) [] = matchAt r [].
Proof. reflexivity. Qed.

Lemma matchAt_star_cons (cls : N -> bool) (r : list atom) (c : N)
  (t : jsstring) :
  matchAt (Star cls :: r) (c :: t) =
  if cls c then
    match matchAt (Star cls :: r) t with
    | Some g => Some g
    | None => matchAt r (c :: t)
    end
  else matchAt r (c :: t).
Proof. reflexivity. Qed.

Lemma matchAt_end (r : list atom) (s : jsstring) :
  matchAt (EndOfInput :: r) s =
  match s with
  | [] => matchAt r []
  | _ :: _ => None
  end.
Proof. destruct s; reflexivity. Qed.

(** A match of [str.match] starts at the leftmost position that matches. *)
Lemma regexMatch1_Some (r : list atom) (str g : jsstring) :
  regexMatch1 r str = Some g ->
  exists pre post,
    str = pre ++ post
    /\ matchAt r post = Some g
    /\ forall pre' post',
         str = pre' ++ post' -> length pre' < length pre ->
         matchAt r post' = None.
Proof.
  induction str as [|c t IH]; simpl.
  - destruct (matchAt r []) eqn:E; [|discriminate]. intros [= ->].
    exists [], []. repeat split; [assumption|]. simpl; intros; lia.
  - destruct (matchAt r (c :: t)) eqn:E.
    + intros [= ->]. exists [], (c :: t). repeat split; [assumption|].
      simpl; intros; lia.
    + intros H. apply IH in H as (pre & post & -> & Hm & Hleft).
      exists (c :: pre), post. repeat split; [assumption|].
      intros [|c' pre'] post' Heq Hlt.
      * simpl in Heq. now subst post'.
      * simpl in Heq. injection Heq as -> Heq. apply (Hleft pre' post' Heq).
        simpl in Hlt. lia.
Qed.

Lemma regexMatch1_None (r : list atom) (str : jsstring) :
  regexMatch1 r str = None ->
  forall pre post, str = pre ++ post -> matchAt r post = None.
Proof.
  induction str as [|c t IH]; simpl.
  - destruct (matchAt r []) eqn:E; [discriminate|]. intros _ pre post H.
    symmetry in H. apply app_eq_nil in H as [-> ->]. assumption.
  - destruct (matchAt r (c :: t)) eqn:E; [discriminate|]. intros H [|c' pre] post Heq.
    + simpl in Heq. now subst post.
    + simpl in Heq. injection Heq as -> Heq. exact (IH H pre post Heq).
Qed.

(** A greedy class-plus in front of the end anchor takes the whole rest. *)
Lemma matchAt_plus_end (cls : N -> bool) (s g : jsstring) :
  matchAt [Group1Plus cls; EndOfInput] s = Some g <->
  g = s /\ s <> [] /\ Forall (fun c => cls c = true) s.
Proof.
  revert g; induction s as [|c t IH]; intros g.
  - rewrite matchAt_plus_nil. split; [discriminate | intros (_ & H & _); congruence].
  - rewrite matchAt_plus_cons. destruct (cls c) eqn:Ec.
    + destruct (matchAt [Group1Plus cls; EndOfInput] t) as [g'|] eqn:E.
      * destruct (proj1 (IH g') eq_refl) as (-> & Hne & Hall). split.
        -- intros [= <-]. repeat split; [discriminate | now constructor].
        -- now intros (-> & _).
      * rewrite matchAt_end. destruct t as [|c' t].
        -- simpl. split.
           ++ intros [= <-]. repeat split; [discriminate | now constructor].
           ++ now intros (-> & _).
        -- split; [discriminate|]. intros (-> & _ & Hall).
           inversion Hall as [|? ? _ Hall']; subst.
           assert (None = Some (c' :: t)) as Hc
             by (apply IH; repeat split; [discriminate | assumption]).
           discriminate.
    + split; [discriminate|]. intros (_ & _ & Hall).
      inversion Hall; subst. congruence.
Qed.

Lemma matchAt_reBoundary (s b : jsstring) :
  matchAt reBoundary s = Some b <-> boundaryParameter s [] b.
Proof.
  unfold reBoundary, boundaryParameter. rewrite matchAt_chars.
  destruct (stripPrefix N.eqb (lit "boundary=") s) as [s'|] eqn:E.
  - apply (stripPrefix_iff _ N.eqb_eq) in E. rewrite matchAt_plus_end. split.
    + intros (-> & Hne & Hall). now repeat split.
    + intros (Hs & Hne & Hall). change (s = lit "boundary=" ++ b) in Hs.
      rewrite E in Hs. apply app_inv_head in Hs as ->. now repeat split.
  - split; [discriminate|]. intros (Hs & _).
    change (s = lit "boundary=" ++ b) in Hs.
    apply (stripPrefix_iff _ N.eqb_eq) in Hs. congruence.
Qed.

Lemma boundaryParameter_shift (pre s b : jsstring) :
  boundaryParameter (pre ++ s) pre b <-> boundaryParameter s [] b.
Proof.
  unfold boundaryParameter.
  change ([] ++ lit "boundary=" ++ b) with (lit "boundary=" ++ b). split.
  - intros (H & Hne & Hall). apply app_inv_head in H. now repeat split.
  - intros (-> & Hne & Hall). now repeat split.
Qed.

Lemma boundaryParameter_suffix (ct pre b : jsstring) :
  boundaryParameter ct pre b ->
  ct = pre ++ (lit "boundary=" ++ b) /\ boundaryParameter (lit "boundary=" ++ b) [] b.
Proof.
  intros (-> & Hne & Hall). split; [reflexivity|]. now repeat split.
Qed.

Lemma regexMatch1_reBoundary_Some (ct b : jsstring) :
  regexMatch1 reBoundary ct = Some b ->
  exists pre,
    boundaryParameter ct pre b
    /\ forall pre' b', boundaryParameter ct pre' b' -> length pre <= length pre'.
Proof.
  intros H. apply regexMatch1_Some in H as (pre & post & -> & Hm & Hleft).
  apply matchAt_reBoundary in Hm. exists pre. split.
  - now apply boundaryParameter_shift.
  - intros pre' b' Hb'. apply Nat.nlt_ge. intros Hlt.
    apply boundaryParameter_suffix in Hb' as [Heq Hb'].
    apply matchAt_reBoundary in Hb'.
    rewrite (Hleft pre' _ Heq Hlt) in Hb'. discriminate.
Qed.

Lemma regexMatch1_reBoundary_None (ct : jsstring) :
  regexMatch1 reBoundary ct = None <->
  forall pre b, ~ boundaryParameter ct pre b.
Proof.
  split.
  - intros H pre b Hb. apply boundaryParameter_suffix in Hb as [Heq Hb].
    apply matchAt_reBoundary in Hb.
    rewrite (regexMatch1_None _ H pre _ Heq) in Hb. discriminate.
  - intros H. destruct (regexMatch1 reBoundary ct) as [b|] eqn:E; [|reflexivity].
    apply regexMatch1_reBoundary_Some in E as (pre & Hb & _). now apply H in Hb.
Qed.

Lemma includes_iff (str search : jsstring) :
  includes str search = true <-> exists i, occursAt search str i.
Proof.
  unfold includes.
  destruct (indexOfFrom N.eqb search str 0) as [i|] eqn:E.
  - apply (indexOfFrom_Some _ N.eqb_eq) in E as (k & _ & Hk & _).
    split; [intros _; now exists k | reflexivity].
  - apply (indexOfFrom_None _ N.eqb_eq) in E.
    split; [discriminate | intros [i Hi]; now apply E in Hi].
Qed.

Lemma includes_false_iff (str search : jsstring) :
  includes str search = false <-> absent search str.
Proof.
  rewrite <- not_true_iff_false, includes_iff. split.
  - intros H i Hi. apply H. now exists i.
  - intros H [i Hi]. now apply H in Hi.
Qed.

(** ** The Boundary Extractor *)

(** C4, amended.  The Boundary Extractor fails exactly when the header is
    absent, does not contain multipart/form-data, or has no occurrence of
    boundary= that is followed, up to the end of the header, by at least one
    character and no line terminator; each failure is of kind
    InvalidContentType; and on success the boundary is, verbatim, the suffix
    of the header behind the leftmost such occurrence of boundary=. *)
Theorem extractBoundary_spec (header : option jsstring) :
  ((exists e, extractBoundary header = inl e) <->
   match header with
   | None => True
   | Some ct =>
       absent (lit "multipart/form-data") ct
       \/ (forall pre b, ~ boundaryParameter ct pre b)
   end)
  /\ (forall e, extractBoundary header = inl e -> kindOf e = InvalidContentType)
  /\ (forall b,
        extractBoundary header = inr b ->
        exists ct pre,
          header = Some ct
          /\ boundaryParameter ct pre b
          /\ forall pre' b',
               boundaryParameter ct pre' b' -> length pre <= length pre').
Proof.
  destruct header as [ct|]; simpl.
  2:{ repeat split; try discriminate.
      - now exists ContentTypeMustBeMultipart.
      - now intros e [= <-]. }
  destruct (includes ct (lit "multipart/form-data")) eqn:Ei.
  - assert (falsy ct = false) as ->.
    { destruct ct; [discriminate | reflexivity]. }
    simpl. destruct (regexMatch1 reBoundary ct) as [b|] eqn:Er.
    + apply regexMatch1_reBoundary_Some in Er as (pre & Hb & Hleft).
      repeat split; try discriminate.
      * now intros [e He].
      * intros [Ha | Hn].
        -- apply includes_false_iff in Ha. congruence.
        -- now apply Hn in Hb.
      * intros b' [= <-]. now exists ct, pre.
    + repeat split; try discriminate.
      * intros _. right. now apply regexMatch1_reBoundary_None.
      * intros _. now exists NoBoundaryFound.
      * now intros e [= <-].
  - rewrite orb_true_r. repeat split; try discriminate.
    + intros _. left. now apply includes_false_iff.
    + intros _. now exists ContentTypeMustBeMultipart.
    + now intros e [= <-].
Qed.

(** C4, as stated, fails: a header that contains multipart/form-data and
    boundary= with nothing behind it is rejected. *)
Lemma extractBoundary_empty_value :
  extractBoundary (Some headerEmptyBoundary) = inl NoBoundaryFound
  /\ includes headerEmptyBoundary (lit "multipart/form-data") = true
  /\ includes headerEmptyBoundary (lit "boundary=") = true.
Proof. repeat split. Qed.

(** ** Facts about one part *)

Lemma bufferFrom_CRLFCRLF : bufferFrom CRLFCRLF = separator.
Proof. reflexivity. Qed.

Lemma indexOf_0_firstAt (buffer value : Buffer) (k : nat) :
  indexOf buffer value 0 = Some k -> firstAt value buffer k.
Proof.
  intros H. apply indexOf_Some in H as (k' & -> & Hk); [exact Hk | lia].
Qed.

Lemma occursAt_prefix (X : Type) (a b s : list X) (i : nat) :
  occursAt (a ++ b) s i -> occursAt a s i.
Proof.
  intros (pre & post & -> & Hl). exists pre, (b ++ post).
  split; [now rewrite <- app_assoc | exact Hl].
Qed.

Lemma parsePart_at (h b : Buffer) :
  firstAt separator (h ++ separator ++ b) (length h) ->
  parsePart (h ++ separator ++ b) =
  if isFilePart (toString h) then
    Some {| filename := extractFilename (toString h);
            mimeType := extractMimeType (toString h);
            content := b |}
  else None.
Proof.
  intros Hf. unfold parsePart. rewrite bufferFrom_CRLFCRLF.
  destruct (length (h ++ separator ++ b) =? 0) eqn:El.
  - apply Nat.eqb_eq in El. rewrite !length_app in El. simpl in El. lia.
  - rewrite (firstAt_indexOf Hf).
    assert (slice (h ++ separator ++ b) 0 (length h) = h) as ->.
    { unfold slice. rewrite Nat.sub_0_r. change (skipn 0 ?l) with l.
      now rewrite firstn_app, Nat.sub_diag, firstn_all, firstn_O, app_nil_r. }
    assert (sliceFrom (h ++ separator ++ b) (length h + 4) = b) as ->.
    { unfold sliceFrom. rewrite skipn_app.
      replace (length h + 4 - length h) with 4 by lia.
      now rewrite (skipn_all2 (n := length h + 4) h) by lia. }
    reflexivity.
Qed.

Lemma parsePart_absent (part : Buffer) :
  absent separator part -> parsePart part = None.
Proof.
  intros Ha. unfold parsePart. rewrite bufferFrom_CRLFCRLF.
  destruct (length part =? 0); [reflexivity|].
  now rewrite (absent_indexOf Ha).
Qed.

Lemma parsePart_Some_inv (part : Buffer) (fd : FileData) :
  parsePart part = Some fd ->
  exists h,
    part = h ++ separator ++ content fd
    /\ firstAt separator part (length h)
    /\ isFilePart (toString h) = true
    /\ filename fd = extractFilename (toString h)
    /\ mimeType fd = extractMimeType (toString h).
Proof.
  unfold parsePart. rewrite bufferFrom_CRLFCRLF.
  destruct (length part =? 0); [discriminate|].
  destruct (indexOf part separator 0) as [k|] eqn:E; [|discriminate].
  apply indexOf_0_firstAt in E. pose proof E as [Ho _].
  pose proof (occursAt_bound Ho) as Hb. pose proof (occursAt_split Ho) as Hs.
  unfold slice, sliceFrom. rewrite Nat.sub_0_r. simpl skipn at 1.
  destruct (isFilePart (toString (firstn k part))) eqn:Ef; [|discriminate].
  intros [= <-]. simpl. exists (firstn k part).
  assert (length (firstn k part) = k) as Hl by (rewrite length_firstn; lia).
  rewrite Hl. repeat split; try assumption || reflexivity || apply E.
Qed.

Lemma isFilePart_iff (hs : jsstring) :
  isFilePart hs = true <->
  (exists i, occursAt (lit "Content-Disposition: form-data") hs i)
  /\ (exists i, occursAt (lit "filename=") hs i).
Proof.
  unfold isFilePart. now rewrite andb_true_iff, !includes_iff.
Qed.

Lemma fileBearing_iff (part : Buffer) :
  fileBearing part <-> exists fd, parsePart part = Some fd.
Proof.
  split.
  - intros (h & b & -> & Hf & Hd & Hn).
    rewrite (@parsePart_at h b Hf).
    assert (isFilePart (toString h) = true) as -> by now apply isFilePart_iff.
    eexists; reflexivity.
  - intros (fd & H). apply parsePart_Some_inv in H as (h & Hp & Hf & Hi & _).
    apply isFilePart_iff in Hi as [Hd Hn].
    now exists h, (content fd).
Qed.

Lemma not_fileBearing_iff (part : Buffer) :
  ~ fileBearing part <-> parsePart part = None.
Proof.
  rewrite fileBearing_iff. destruct (parsePart part) as [fd|].
  - split; [intros H; exfalso; apply H; now exists fd | discriminate].
  - split; [reflexivity | intros _ [fd H]; discriminate].
Qed.

Lemma regexMatch1_literal (l : jsstring) (r : list atom) (str g : jsstring) :
  regexMatch1 (Chars l :: r) str = Some g -> exists i, occursAt l str i.
Proof.
  intros H. apply regexMatch1_Some in H as (pre & post & -> & Hm & _).
  rewrite matchAt_chars in Hm.
  destruct (stripPrefix N.eqb l post) as [s'|] eqn:E; [|discriminate].
  apply (stripPrefix_iff _ N.eqb_eq) in E as ->.
  now exists (length pre), pre, s'.
Qed.

Lemma extractMimeType_default (hs : jsstring) :
  absent (lit "Content-Type:") hs -> extractMimeType hs = defaultMimeType.
Proof.
  intros Ha. unfold extractMimeType.
  destruct (regexMatch1 reContentType hs) as [g|] eqn:E; [|reflexivity].
  apply regexMatch1_literal in E as [i Hi]. now apply Ha in Hi.
Qed.

Lemma extractFilename_default (hs : jsstring) :
  absent (lit "filename=" ++ [dquote]) hs -> extractFilename hs = lit "unknown".
Proof.
  intros Ha. unfold extractFilename.
  destruct (regexMatch1 reFilename hs) as [g|] eqn:E; [|reflexivity].
  apply regexMatch1_literal in E as [i Hi]. now apply Ha in Hi.
Qed.

Lemma scanParts_skip (before rest : list Buffer) :
  Forall (fun q => parsePart q = None) before ->
  scanParts (before ++ rest) = scanParts rest.
Proof.
  induction 1 as [|q before Hq _ IH]; simpl; [reflexivity|].
  now rewrite Hq.
Qed.

(** ** The Part Header Parser *)

(** C6, amended.  For a raw part whose first CRLF CRLF stands behind the
    bytes [h] and before the bytes [b]: the part is judged on the text of
    [h], and when it is returned its body is [b], as it is; when the text
    Content-Type: occurs nowhere in the text of [h], be it as the name of a
    header, at the end of a longer name or inside a value, the MIME type
    is application/octet-stream; and a raw part without CRLF CRLF is passed
    over, so that it never changes which part is selected. *)
Theorem parsePart_header_body (h b : Buffer)
  (Hfirst : firstAt separator (h ++ separator ++ b) (length h)) :
  parsePart (h ++ separator ++ b) =
    (if isFilePart (toString h) then
       Some {| filename := extractFilename (toString h);
               mimeType := extractMimeType (toString h);
               content := b |}
     else None)
  /\ (absent (lit "Content-Type:") (toString h) ->
      extractMimeType (toString h) = defaultMimeType)
  /\ (forall junk before after,
        absent separator junk ->
        parsePart junk = None
        /\ scanParts (before ++ junk :: after) = scanParts (before ++ after)).
Proof.
  split; [exact (@parsePart_at h b Hfirst)|]. split.
  - intros Ha. now apply extractMimeType_default.
  - intros junk before after Hj. pose proof (parsePart_absent Hj) as Hn.
    split; [exact Hn|].
    induction before as [|q before IH]; simpl.
    + now rewrite Hn.
    + now rewrite IH.
Qed.

(** C6, amended, at the part of scenario A. *)
Lemma parsePart_header_body_scenarioA :
  parsePart ((CRLFbytes ++ headersA) ++ separator ++ (payload37 ++ CRLFbytes)) =
    (if isFilePart (toString (CRLFbytes ++ headersA)) then
       Some {| filename := extractFilename (toString (CRLFbytes ++ headersA));
               mimeType := extractMimeType (toString (CRLFbytes ++ headersA));
               content := payload37 ++ CRLFbytes |}
     else None)
  /\ (absent (lit "Content-Type:") (toString (CRLFbytes ++ headersA)) ->
      extractMimeType (toString (CRLFbytes ++ headersA)) = defaultMimeType)
  /\ (forall junk before after,
        absent separator junk ->
        parsePart junk = None
        /\ scanParts (before ++ junk :: after) = scanParts (before ++ after)).
Proof.
  apply (@parsePart_header_body (CRLFbytes ++ headersA) (payload37 ++ CRLFbytes)).
  apply indexOf_0_firstAt. by_evaluation.
Defined.

(** C6, as stated, fails: the part has the header fields
    Content-Disposition and X-Content-Type and none named Content-Type, and
    its MIME type is text/evil, taken from the end of the longer name. *)
Lemma loose_content_type_is_read :
  Observations.fieldNames (toString MoreScenarios.headersLooseType)
  = [lit "Content-Disposition"; lit "X-Content-Type"]
  /\ parsePart MoreScenarios.partLooseType
     = Some {| filename := lit "a.png";
               mimeType := lit "text/evil";
               content := payload37 ++ CRLFbytes |}
  /\ fst (parseMultipartFile
            (requestOf headerX
               (encodeSinglePart (bytes "X") MoreScenarios.headersLooseType
                  payload37)) emptyWorld)
     = Returned (Some {| filename := lit "a.png";
                         mimeType := lit "text/evil";
                         content := payload37 ++ CRLFbytes |}).
Proof. repeat split; by_evaluation. Qed.

(** ** Effects of the methods *)

Lemma parseMultipartFile_world (request : FastifyRequest) (w : World) :
  snd (parseMultipartFile request w) = w.
Proof.
  unfold parseMultipartFile.
  destruct (extractBoundary (contentTypeHeader request)); [reflexivity|].
  destruct (body request) as [rawBody|]; [|reflexivity].
  destruct (length rawBody =? 0); [reflexivity|].
  destruct (splitBuffer rawBody _); reflexivity.
Qed.

Lemma parseMultipartFile_run (request : FastifyRequest) (w : World) :
  parseMultipartFile request w = (fst (parseMultipartFile request w), w).
Proof.
  rewrite <- (parseMultipartFile_world request w) at 3.
  now destruct (parseMultipartFile request w).
Qed.

Lemma parseMultipartFile_any_world (request : FastifyRequest) (w1 w2 : World) :
  fst (parseMultipartFile request w1) = fst (parseMultipartFile request w2).
Proof.
  unfold parseMultipartFile.
  destruct (extractBoundary (contentTypeHeader request)); [reflexivity|].
  destruct (body request) as [rawBody|]; [|reflexivity].
  destruct (length rawBody =? 0); [reflexivity|].
  destruct (splitBuffer rawBody _); reflexivity.
Qed.

Lemma parseMultipartFile_terminates (request : FastifyRequest) (w : World) :
  exists r,
    (fst (parseMultipartFile request w) = Returned r)
    \/ (exists e, fst (parseMultipartFile request w) = Thrown e).
Proof.
  unfold parseMultipartFile.
  destruct (extractBoundary (contentTypeHeader request)) as [e|boundary].
  - exists None. right. now exists e.
  - destruct (body request) as [rawBody|]; [|exists None; now left].
    destruct (length rawBody =? 0); [exists None; now left|].
    destruct (@splitBuffer_Split rawBody (bufferFrom (lit "--" ++ boundary)))
      as (ps & -> & _).
    + rewrite bufferFrom_dashes. discriminate.
    + exists (scanParts ps). now left.
Qed.

Section UploadFacts.
Variable extname : jsstring -> jsstring.
Variable pathJoin : jsstring -> jsstring -> jsstring.

Lemma uploadFile_no_file (this : Service) (env : Ambient)
  (request : FastifyRequest) (w : World) :
  fst (parseMultipartFile request w) = Returned None ->
  uploadFile extname pathJoin this env request w = (Thrown NoFileUploaded, w).
Proof.
  intros H. unfold uploadFile, bind.
  now rewrite parseMultipartFile_run, H.
Qed.

Lemma uploadAndCreateMedia_no_file (this : Service) (env : Ambient)
  (request : FastifyRequest) (userId : jsstring) (w : World) :
  fst (parseMultipartFile request w) = Returned None ->
  uploadAndCreateMedia extname pathJoin this env request userId w
  = (Thrown NoFileUploaded, w).
Proof.
  intros H. unfold uploadAndCreateMedia, bind.
  now rewrite parseMultipartFile_run, H.
Qed.

End UploadFacts.

(** ** The File Part Selector *)

(** C3, amended.  The selector returns the first part, in order, that has
    a CRLF CRLF separator and whose header text contains
    Content-Disposition: form-data and filename= (the filename may be
    empty), whatever parts follow; parts before it that do not qualify are
    passed over; when no part qualifies the result is null, and the upload
    methods then fail with NoFileFound and change nothing. *)
Theorem scanParts_first_file (before after : list Buffer) (part : Buffer)
  (Hbefore : Forall (fun q => ~ fileBearing q) before)
  (Hpart : fileBearing part) :
  (exists fd,
      parsePart part = Some fd
      /\ scanParts (before ++ part :: after) = Some fd)
  /\ scanParts before = None
  /\ (forall extname pathJoin this env request userId w,
        fst (parseMultipartFile request w) = Returned None ->
        uploadFile extname pathJoin this env request w
        = (Thrown NoFileUploaded, w)
        /\ uploadAndCreateMedia extname pathJoin this env request userId w
           = (Thrown NoFileUploaded, w))
  /\ kindOf NoFileUploaded = NoFileFound.
Proof.
  assert (Forall (fun q => parsePart q = None) before) as Hb.
  { apply (Forall_impl _ (P := fun q => ~ fileBearing q)); [|exact Hbefore].
    intros q. apply not_fileBearing_iff. }
  apply fileBearing_iff in Hpart as [fd Hfd].
  repeat split.
  - exists fd. split; [exact Hfd|].
    rewrite (scanParts_skip _ Hb). simpl. now rewrite Hfd.
  - rewrite <- (app_nil_r before). now rewrite (scanParts_skip _ Hb).
  - now apply uploadFile_no_file.
  - now apply uploadAndCreateMedia_no_file.
Qed.

(** C3, amended, at a caption field followed by the part of scenario A and
    by a second file. *)
Lemma scanParts_first_file_caption_then_A :
  (exists fd,
      parsePart partA = Some fd
      /\ scanParts ([partCaption] ++ partA :: [partLowerType]) = Some fd)
  /\ scanParts [partCaption] = None
  /\ (forall extname pathJoin this env request userId w,
        fst (parseMultipartFile request w) = Returned None ->
        uploadFile extname pathJoin this env request w
        = (Thrown NoFileUploaded, w)
        /\ uploadAndCreateMedia extname pathJoin this env request userId w
           = (Thrown NoFileUploaded, w))
  /\ kindOf NoFileUploaded = NoFileFound.
Proof.
  apply (@scanParts_first_file [partCaption] [partLowerType] partA).
  - constructor; [|constructor]. apply not_fileBearing_iff. by_evaluation.
  - apply fileBearing_iff. eexists. by_evaluation.
Defined.

(** C3, as stated, fails: the first part has an empty filename and is
    selected all the same, under the name unknown; the file b.png behind it
    is ignored. *)
Lemma empty_filename_selected :
  fst (parseMultipartFile (requestOf headerX bodyEmptyNameThenB) emptyWorld)
  = Returned (Some {| filename := lit "unknown";
                      mimeType := lit "application/octet-stream";
                      content := CRLFbytes |})
  /\ regexMatch1 reFilename (toString (CRLFbytes ++ headersEmptyName)) = None
  /\ regexMatch1 reFilename (toString (CRLFbytes ++ headersB))
     = Some (lit "b.png").
Proof. repeat split; by_evaluation. Qed.

(** Two files in one body: the first is returned. *)
Example two_files_first_selected :
  fst (parseMultipartFile (requestOf headerX bodyTwoFiles) emptyWorld)
  = Returned (Some {| filename := lit "a.png";
                      mimeType := lit "image/png";
                      content := bytes "first" ++ CRLFbytes |}).
Proof. by_evaluation. Qed.

(** Scenario C: a lone caption field gives NoFileFound. *)
Example caption_only_no_file :
  uploadFile simpleExtname simpleJoin defaultService quietEnv
    (requestOf headerX bodyCaption) emptyWorld
  = (Thrown NoFileUploaded, emptyWorld).
Proof. by_evaluation. Qed.

(** ** Letter case of the header names *)

Lemma decodeFrom_ascii (bs : Buffer) :
  Forall (fun b => (Byte.to_N b <? 128)%N = true) bs ->
  decodeFrom Start bs = map Byte.to_N bs.
Proof.
  induction 1 as [|b bs Hb _ IH]; [reflexivity|].
  apply N.ltb_lt in Hb.
  assert (startByte (Byte.to_N b) = ([Byte.to_N b], Start)) as Hs.
  { unfold startByte, inRange.
    assert ((0 <=? Byte.to_N b)%N = true) as -> by (apply N.leb_le; lia).
    assert ((Byte.to_N b <=? 127)%N = true) as -> by (apply N.leb_le; lia).
    reflexivity. }
  cbn [decodeFrom decodeStep map]. rewrite Hs, IH. reflexivity.
Qed.

Lemma toString_ascii (bs : Buffer) :
  Forall (fun b => (Byte.to_N b <? 128)%N = true) bs ->
  toString bs = map Byte.to_N bs.
Proof.
  intros H. unfold toString. rewrite (decodeFrom_ascii H).
  clear H. induction bs as [|b bs IH]; [reflexivity|].
  simpl. rewrite IH. unfold utf16.
  pose proof (Byte.to_N_bounded b) as Hb.
  assert ((Byte.to_N b <? 65536)%N = true) as -> by (apply N.ltb_lt; lia).
  reflexivity.
Qed.

Lemma occursAt_In (X : Type) (x : X) (needle hay : list X) (i : nat) :
  occursAt (x :: needle) hay i -> In x hay.
Proof.
  intros (pre & post & -> & _). apply in_or_app. right. now left.
Qed.

Lemma Forall_prefix (X : Type) (P : X -> Prop) (n : nat) (l : list X) :
  Forall P l -> Forall P (firstn n l).
Proof.
  intros H; revert n. induction H as [|x l Hx _ IH]; intros [|n]; simpl;
    constructor; auto.
Qed.

(** A header block without upper-case letters is never that of a file part:
    the text Content-Disposition cannot occur in it. *)
Lemma lower_case_header_not_file (h b : Buffer) :
  Forall (fun x => lowerAscii x = true) h ->
  parsePart (h ++ separator ++ b) = None.
Proof.
  intros Hl. destruct (parsePart (h ++ separator ++ b)) as [fd|] eqn:E;
    [exfalso | reflexivity].
  apply parsePart_Some_inv in E as (h' & Hp & [_ Hmin] & Hi & _).
  assert (length h' <= length h) as Hle.
  { apply Nat.nlt_ge. intros Hlt. apply (Hmin (length h) Hlt).
    now exists h, b. }
  assert (h' = firstn (length h') h) as Hh'.
  { apply (f_equal (firstn (length h'))) in Hp.
    rewrite firstn_app, (firstn_app _ h'), Nat.sub_diag, firstn_all in Hp.
    replace (length h' - length h) with 0 in Hp by lia.
    now rewrite !firstn_O, !app_nil_r in Hp. }
  assert (Forall (fun x => lowerAscii x = true) h') as Hl'.
  { rewrite Hh'. now apply Forall_prefix. }
  rewrite toString_ascii in Hi.
  - apply isFilePart_iff in Hi as [[i Hd] _].
    apply occursAt_In in Hd. apply in_map_iff in Hd as (x & Hx & Hin).
    apply (proj1 (Forall_forall _ _) Hl') in Hin.
    unfold lowerAscii in Hin. rewrite Hx in Hin. discriminate.
  - apply (Forall_impl _ (P := fun x => lowerAscii x = true)); [|exact Hl'].
    intros x Hx. unfold lowerAscii in Hx. now apply andb_true_iff in Hx.
Qed.

(** C8, amended.  Header names are matched in their exact spelling, case
    included: a part is returned only if the text before its first
    CRLF CRLF contains Content-Disposition: form-data and filename= as
    written here, its filename is other than unknown only if that text
    contains filename= followed by a double quote, and its MIME type is
    other than application/octet-stream only if that text contains
    Content-Type: as written here; and a part whose header block is ASCII
    without any upper-case letter is never returned. *)
Theorem header_names_exact_spelling (part : Buffer) (fd : FileData)
  (Hpart : parsePart part = Some fd) :
  (exists h,
      part = h ++ separator ++ content fd
      /\ (exists i,
            occursAt (lit "Content-Disposition: form-data") (toString h) i)
      /\ (exists i, occursAt (lit "filename=") (toString h) i)
      /\ (absent (lit "filename=" ++ [dquote]) (toString h) ->
          filename fd = lit "unknown")
      /\ (absent (lit "Content-Type:") (toString h) ->
          mimeType fd = defaultMimeType))
  /\ (forall h b,
        Forall (fun x => lowerAscii x = true) h ->
        parsePart (h ++ separator ++ b) = None).
Proof.
  split; [|exact lower_case_header_not_file].
  apply parsePart_Some_inv in Hpart as (h & Hp & _ & Hi & Hn & Hm).
  apply isFilePart_iff in Hi as [Hd Hf].
  exists h. repeat split; try assumption.
  - intros Ha. rewrite Hn. now apply extractFilename_default.
  - intros Ha. rewrite Hm. now apply extractMimeType_default.
Qed.

(** C8, amended, at the part of scenario A. *)
Lemma header_names_exact_spelling_scenarioA :
  (exists h,
      partA = h ++ separator ++ (payload37 ++ CRLFbytes)
      /\ (exists i,
            occursAt (lit "Content-Disposition: form-data") (toString h) i)
      /\ (exists i, occursAt (lit "filename=") (toString h) i)
      /\ (absent (lit "filename=" ++ [dquote]) (toString h) ->
          lit "a.png" = lit "unknown")
      /\ (absent (lit "Content-Type:") (toString h) ->
          lit "image/png" = defaultMimeType))
  /\ (forall h b,
        Forall (fun x => lowerAscii x = true) h ->
        parsePart (h ++ separator ++ b) = None).
Proof.
  apply (@header_names_exact_spelling partA
           {| filename := lit "a.png";
              mimeType := lit "image/png";
              content := payload37 ++ CRLFbytes |}).
  by_evaluation.
Defined.

(** C8, as stated, fails: with content-disposition in lower case the part
    of scenario A is no longer a file part, and with only content-type in
    lower case its MIME type is the default one instead of image/png. *)
Lemma lower_case_names_change_result :
  parsePart partA
  = Some {| filename := lit "a.png";
            mimeType := lit "image/png";
            content := payload37 ++ CRLFbytes |}
  /\ parsePart partLower = None
  /\ parsePart partLowerType
     = Some {| filename := lit "a.png";
               mimeType := lit "application/octet-stream";
               content := payload37 ++ CRLFbytes |}.
Proof. repeat split; by_evaluation. Qed.

(** ** Encoding, then decoding *)

Lemma encodeSinglePart_shape (boundary : jsstring) (headers payload : Buffer) :
  encodeSinglePart (bufferFrom boundary) headers payload
  = [] ++ bufferFrom (lit "--" ++ boundary)
    ++ (rawPartOf headers payload
        ++ bufferFrom (lit "--" ++ boundary) ++ bytes "--" ++ CRLFbytes).
Proof.
  rewrite bufferFrom_dashes. unfold encodeSinglePart, rawPartOf, separator.
  change (bytes "--") with [x2d; x2d].
  repeat (simpl; rewrite <- app_assoc). reflexivity.
Qed.

Lemma rawPartOf_shape (headers payload : Buffer) :
  rawPartOf headers payload
  = (CRLFbytes ++ headers) ++ separator ++ (payload ++ CRLFbytes).
Proof.
  unfold rawPartOf. now rewrite <- app_assoc.
Qed.

(** C1.  What the decoder returns for a body that encodes one file part
    between two delimiters, when the delimiter occurs neither in the headers
    nor in the payload and the headers hold no empty line: the payload
    followed by the CRLF of the closing delimiter line, and not the payload
    itself. *)
Theorem decode_encode_appends_CRLF (contentType boundary : jsstring)
  (headers payload : Buffer) (who : option User) (w : World)
  (Hct : extractBoundary (Some contentType) = inr boundary)
  (Hdelim :
     firstAt (bufferFrom (lit "--" ++ boundary))
       (rawPartOf headers payload
        ++ bufferFrom (lit "--" ++ boundary) ++ bytes "--" ++ CRLFbytes)
       (length (rawPartOf headers payload)))
  (Hsep :
     firstAt separator (rawPartOf headers payload)
       (length (CRLFbytes ++ headers)))
  (Hfile : isFilePart (toString (CRLFbytes ++ headers)) = true) :
  parseMultipartFile
    {| contentTypeHeader := Some contentType;
       body := Some (encodeSinglePart (bufferFrom boundary) headers payload);
       user := who |} w
  = (Returned
       (Some {| filename := extractFilename (toString (CRLFbytes ++ headers));
                mimeType := extractMimeType (toString (CRLFbytes ++ headers));
                content := payload ++ CRLFbytes |}),
     w).
Proof.
  unfold parseMultipartFile. cbn [contentTypeHeader body]. rewrite Hct.
  rewrite encodeSinglePart_shape.
  set (d := bufferFrom (lit "--" ++ boundary)) in *.
  set (tail := bytes "--" ++ CRLFbytes) in *.
  set (P := rawPartOf headers payload) in *.
  assert (d <> []) as Hd by (unfold d; rewrite bufferFrom_dashes; discriminate).
  destruct (length ([] ++ d ++ P ++ d ++ tail) =? 0) eqn:El.
  { apply Nat.eqb_eq in El. rewrite !length_app in El.
    destruct d; [congruence | simpl in El; lia]. }
  destruct (@splitBuffer_Split ([] ++ d ++ P ++ d ++ tail) d Hd)
    as (ps & -> & Hsplit).
  destruct (@splitBuffer_Split tail d Hd) as (ps3 & _ & Hsplit3).
  assert (Split d ([] ++ d ++ P ++ d ++ tail) (emit [] ++ emit P ++ ps3))
    as Hmine.
  { apply Split_next.
    - split.
      + now exists [], (P ++ d ++ tail).
      + simpl. intros j Hj. lia.
    - apply Split_next; assumption. }
  rewrite (Split_functional Hsplit Hmine).
  assert (emit P = [P]) as ->.
  { unfold P, rawPartOf. reflexivity. }
  cbn [emit app scanParts]. unfold ret.
  unfold P in *. rewrite rawPartOf_shape in *.
  rewrite (@parsePart_at (CRLFbytes ++ headers) (payload ++ CRLFbytes) Hsep).
  now rewrite Hfile.
Qed.

(** C1, at scenario A. *)
Lemma decode_encode_scenarioA :
  parseMultipartFile requestA emptyWorld
  = (Returned
       (Some {| filename := extractFilename (toString (CRLFbytes ++ headersA));
                mimeType := extractMimeType (toString (CRLFbytes ++ headersA));
                content := payload37 ++ CRLFbytes |}),
     emptyWorld).
Proof.
  apply (@decode_encode_appends_CRLF headerX (lit "X") headersA payload37
           None emptyWorld).
  - reflexivity.
  - apply indexOf_0_firstAt. by_evaluation.
  - apply indexOf_0_firstAt. by_evaluation.
  - by_evaluation.
Defined.

(** Scenario A, run: the file written and the size recorded have 39 bytes,
    the 37 bytes sent and a CRLF. *)
Example scenarioA_stored_bytes :
  length payload37 = 37
  /\ option_map (@length byte)
       (match fst (parseMultipartFile requestA emptyWorld) with
        | Returned (Some fd) => Some (content fd)
        | _ => None
        end) = Some 39
  /\ map snd (files (snd (uploadFile simpleExtname simpleJoin defaultService
                            quietEnv requestA emptyWorld)))
     = [payload37 ++ CRLFbytes]
  /\ map (@sizeBytes)
       (media (snd (uploadFile simpleExtname simpleJoin defaultService
                      quietEnv requestA emptyWorld)))
     = [39].
Proof. repeat split; by_evaluation. Qed.

(** ** The upload methods *)

Lemma getImageDimensions_null (filepath mimeType : jsstring) (w : World) :
  getImageDimensions filepath mimeType w = (Returned None, w).
Proof.
  unfold getImageDimensions.
  now destruct (startsWith N.eqb (lit "image/") mimeType).
Qed.

Section UploadRuns.
Variable extname : jsstring -> jsstring.
Variable pathJoin : jsstring -> jsstring -> jsstring.

Lemma uploadFile_too_large (this : Service) (env : Ambient)
  (request : FastifyRequest) (w : World) (fd : FileData) :
  fst (parseMultipartFile request w) = Returned (Some fd) ->
  exceeds (length (content fd)) (maxFileSize this) = true ->
  uploadFile extname pathJoin this env request w
  = (Thrown (FileTooLarge (maxFileSize this)), w).
Proof.
  intros Hp Hx. unfold uploadFile, bind.
  now rewrite parseMultipartFile_run, Hp, Hx.
Qed.

Lemma uploadAndCreateMedia_too_large (this : Service) (env : Ambient)
  (request : FastifyRequest) (userId : jsstring) (w : World) (fd : FileData) :
  fst (parseMultipartFile request w) = Returned (Some fd) ->
  exceeds (length (content fd)) (maxFileSize this) = true ->
  uploadAndCreateMedia extname pathJoin this env request userId w
  = (Thrown (FileTooLarge (maxFileSize this)), w).
Proof.
  intros Hp Hx. unfold uploadAndCreateMedia, bind.
  now rewrite parseMultipartFile_run, Hp, Hx.
Qed.

(** A run of [uploadFile] in which nothing fails. *)
Lemma uploadFile_success (this : Service) (env : Ambient)
  (request : FastifyRequest) (w : World) (fd : FileData) :
  fst (parseMultipartFile request w) = Returned (Some fd) ->
  exceeds (length (content fd)) (maxFileSize this) = false ->
  writeThrows env = false ->
  createThrows env = false ->
  exists name base,
    uploadFile extname pathJoin this env request w
    = (Returned {| resId := generatedId env;
                   resUrl := base ++ lit "/uploads/" ++ name;
                   resMimeType := mimeType fd;
                   resWidth := None;
                   resHeight := None |},
       {| files := (pathJoin (uploadDir this) name, content fd) :: files w;
          media :=
            media w
            ++ [{| id := generatedId env;
                   url := base ++ lit "/uploads/" ++ name;
                   recMimeType := mimeType fd;
                   sizeBytes := length (content fd);
                   width := None;
                   height := None;
                   storageKey := name;
                   ownerUserId :=
                     match user request with
                     | Some u =>
                         match sub u with
                         | Some s => orElse s (lit "anonymous")
                         | None => lit "anonymous"
                         end
                     | None => lit "anonymous"
                     end |}] |}).
Proof.
  intros Hp Hx Hw Hc. unfold uploadFile, bind.
  rewrite parseMultipartFile_run, Hp, Hx.
  unfold writeFileSync. rewrite Hw, getImageDimensions_null.
  unfold mediaCreate. rewrite Hc. cbn.
  eexists _, _. reflexivity.
Qed.

Lemma uploadFile_allow_list (this : Service) (allowed : list jsstring)
  (env : Ambient) (request : FastifyRequest) (w : World) :
  uploadFile extname pathJoin
    {| uploadDir := uploadDir this;
       maxFileSize := maxFileSize this;
       allowedMimeTypes := allowed |} env request w
  = uploadFile extname pathJoin this env request w.
Proof. reflexivity. Qed.

Lemma uploadAndCreateMedia_allow_list (this : Service)
  (allowed : list jsstring) (env : Ambient) (request : FastifyRequest)
  (userId : jsstring) (w : World) :
  uploadAndCreateMedia extname pathJoin
    {| uploadDir := uploadDir this;
       maxFileSize := maxFileSize this;
       allowedMimeTypes := allowed |} env request userId w
  = uploadAndCreateMedia extname pathJoin this env request userId w.
Proof. reflexivity. Qed.

End UploadRuns.

(** C2.  When the byte length of the selected file part exceeds the
    configured maximum, [uploadFile] and [uploadAndCreateMedia] fail with the
    error of kind PayloadTooLarge and leave the files and the media table as
    they were: nothing is written, whether or not the file system would have
    accepted the write. *)
Theorem too_large_fails_before_write
  (extname : jsstring -> jsstring) (pathJoin : jsstring -> jsstring -> jsstring)
  (this : Service) (env : Ambient) (request : FastifyRequest)
  (userId : jsstring) (w : World) (fd : FileData) (maximum : Z)
  (Hparse : fst (parseMultipartFile request w) = Returned (Some fd))
  (Hmax : maxFileSize this = Some maximum)
  (Hsize : (maximum < Z.of_nat (length (content fd)))%Z) :
  uploadFile extname pathJoin this env request w
  = (Thrown (FileTooLarge (Some maximum)), w)
  /\ uploadAndCreateMedia extname pathJoin this env request userId w
     = (Thrown (FileTooLarge (Some maximum)), w)
  /\ kindOf (FileTooLarge (Some maximum)) = PayloadTooLarge
  /\ files (snd (uploadFile extname pathJoin this env request w)) = files w
  /\ files (snd (uploadAndCreateMedia extname pathJoin this env request
                   userId w)) = files w.
Proof.
  assert (exceeds (length (content fd)) (maxFileSize this) = true) as Hx.
  { rewrite Hmax. simpl. now apply Z.ltb_lt. }
  rewrite (@uploadFile_too_large extname pathJoin this env request w fd Hparse Hx).
  rewrite (@uploadAndCreateMedia_too_large extname pathJoin this env request
             userId w fd Hparse Hx).
  rewrite Hmax. repeat split.
Qed.

(** C2, at scenario B: the file of scenario A and a limit of 36 bytes. *)
Lemma too_large_scenarioB :
  uploadFile simpleExtname simpleJoin tinyService quietEnv requestA emptyWorld
  = (Thrown (FileTooLarge (Some 36%Z)), emptyWorld)
  /\ uploadAndCreateMedia simpleExtname simpleJoin tinyService quietEnv
       requestA (lit "u1") emptyWorld
     = (Thrown (FileTooLarge (Some 36%Z)), emptyWorld)
  /\ kindOf (FileTooLarge (Some 36%Z)) = PayloadTooLarge
  /\ files (snd (uploadFile simpleExtname simpleJoin tinyService quietEnv
                   requestA emptyWorld)) = files emptyWorld
  /\ files (snd (uploadAndCreateMedia simpleExtname simpleJoin tinyService
                   quietEnv requestA (lit "u1") emptyWorld))
     = files emptyWorld.
Proof.
  apply (@too_large_fails_before_write simpleExtname simpleJoin tinyService
           quietEnv requestA (lit "u1") emptyWorld
           {| filename := lit "a.png";
              mimeType := lit "image/png";
              content := payload37 ++ CRLFbytes |} 36%Z).
  - by_evaluation.
  - reflexivity.
  - by_evaluation.
Defined.

(** ** Determinism of the decoder *)

(** C7.  The decoder terminates, its result is the same from whatever
    state of the files and of the media table it is run, it leaves that
    state as it was, and run a second time behind the first it gives the
    same result again. *)
Theorem decode_deterministic (request : FastifyRequest) (w1 w2 : World) :
  fst (parseMultipartFile request w1) = fst (parseMultipartFile request w2)
  /\ snd (parseMultipartFile request w1) = w1
  /\ (r1 <- parseMultipartFile request ;;
      r2 <- parseMultipartFile request ;;
      ret (r1, r2)) w1
     = (r1 <- parseMultipartFile request ;; ret (r1, r1)) w1
  /\ exists r,
       fst (parseMultipartFile request w1) = Returned r
       \/ exists e, fst (parseMultipartFile request w1) = Thrown e.
Proof.
  repeat split.
  - apply parseMultipartFile_any_world.
  - apply parseMultipartFile_world.
  - unfold bind. rewrite (parseMultipartFile_run request w1).
    destruct (fst (parseMultipartFile request w1)) as [r| |] eqn:E;
      try reflexivity.
    rewrite (parseMultipartFile_run request w1), E. reflexivity.
  - apply parseMultipartFile_terminates.
Qed.

(** ** The allow-list of MIME types *)

(** C9.  The result of the upload methods does not depend on the configured
    list of allowed MIME types; and for every decoded file part within the
    size limit, when neither the file system nor the database fails,
    [uploadFile] returns, the bytes of the part are written and a record
    with the MIME type of the part is created, whatever the list holds. *)
Theorem allow_list_never_consulted
  (extname : jsstring -> jsstring) (pathJoin : jsstring -> jsstring -> jsstring)
  (this : Service) (allowed : list jsstring) (env : Ambient)
  (request : FastifyRequest) (userId : jsstring) (w : World) (fd : FileData)
  (Hparse : fst (parseMultipartFile request w) = Returned (Some fd))
  (Hsize : exceeds (length (content fd)) (maxFileSize this) = false)
  (Hwrite : writeThrows env = false)
  (Hcreate : createThrows env = false) :
  uploadFile extname pathJoin
    {| uploadDir := uploadDir this;
       maxFileSize := maxFileSize this;
       allowedMimeTypes := allowed |} env request w
  = uploadFile extname pathJoin this env request w
  /\ uploadAndCreateMedia extname pathJoin
       {| uploadDir := uploadDir this;
          maxFileSize := maxFileSize this;
          allowedMimeTypes := allowed |} env request userId w
     = uploadAndCreateMedia extname pathJoin this env request userId w
  /\ exists res w' row,
       uploadFile extname pathJoin
         {| uploadDir := uploadDir this;
            maxFileSize := maxFileSize this;
            allowedMimeTypes := allowed |} env request w
       = (Returned res, w')
       /\ resMimeType res = mimeType fd
       /\ map snd (files w') = content fd :: map snd (files w)
       /\ media w' = media w ++ [row]
       /\ recMimeType row = mimeType fd.
Proof.
  split; [reflexivity|]. split; [reflexivity|].
  rewrite uploadFile_allow_list.
  destruct (@uploadFile_success extname pathJoin this env request w fd
              Hparse Hsize Hwrite Hcreate) as (name & base & ->).
  eexists _, _, _. repeat split.
Qed.

(** C9, at scenario A with an allow-list that does not hold image/png. *)
Lemma allow_list_scenarioA :
  existsb (jsstring_eqb (lit "image/png")) (allowedMimeTypes videoOnlyService)
  = false
  /\ exists res w' row,
       uploadFile simpleExtname simpleJoin
         {| uploadDir := uploadDir defaultService;
            maxFileSize := maxFileSize defaultService;
            allowedMimeTypes := allowedMimeTypes videoOnlyService |}
         quietEnv requestA emptyWorld
       = (Returned res, w')
       /\ resMimeType res = lit "image/png"
       /\ map snd (files w') = (payload37 ++ CRLFbytes) :: map snd (files emptyWorld)
       /\ media w' = media emptyWorld ++ [row]
       /\ recMimeType row = lit "image/png".
Proof.
  split; [by_evaluation|].
  apply (@allow_list_never_consulted simpleExtname simpleJoin defaultService
           (allowedMimeTypes videoOnlyService) quietEnv requestA (lit "u1")
           emptyWorld
           {| filename := lit "a.png";
              mimeType := lit "image/png";
              content := payload37 ++ CRLFbytes |}).
  - by_evaluation.
  - by_evaluation.
  - reflexivity.
  - reflexivity.
Defined.

(** ** Uploads without an authenticated user *)

(** C10.  When the request has no user, or a user without a sub claim,
    [uploadFile] does not fail for that: for a decoded file part within the
    size limit, when neither the file system nor the database fails, it
    returns, and the record it creates has the owner anonymous. *)
Theorem anonymous_owner
  (extname : jsstring -> jsstring) (pathJoin : jsstring -> jsstring -> jsstring)
  (this : Service) (env : Ambient) (request : FastifyRequest) (w : World)
  (fd : FileData)
  (Huser : user request = None \/ exists u, user request = Some u /\ sub u = None)
  (Hparse : fst (parseMultipartFile request w) = Returned (Some fd))
  (Hsize : exceeds (length (content fd)) (maxFileSize this) = false)
  (Hwrite : writeThrows env = false)
  (Hcreate : createThrows env = false) :
  exists res w' row,
    uploadFile extname pathJoin this env request w = (Returned res, w')
    /\ media w' = media w ++ [row]
    /\ ownerUserId row = lit "anonymous"
    /\ id row = resId res
    /\ sizeBytes row = length (content fd).
Proof.
  destruct (@uploadFile_success extname pathJoin this env request w fd
              Hparse Hsize Hwrite Hcreate) as (name & base & ->).
  eexists _, _, _. repeat split. cbn.
  destruct Huser as [-> | (u & -> & ->)]; reflexivity.
Qed.

(** C10, at scenario A, whose request has no user. *)
Lemma anonymous_owner_scenarioA :
  exists res w' row,
    uploadFile simpleExtname simpleJoin defaultService quietEnv requestA
      emptyWorld = (Returned res, w')
    /\ media w' = media emptyWorld ++ [row]
    /\ ownerUserId row = lit "anonymous"
    /\ id row = resId res
    /\ sizeBytes row = length (payload37 ++ CRLFbytes).
Proof.
  apply (@anonymous_owner simpleExtname simpleJoin defaultService quietEnv
           requestA emptyWorld
           {| filename := lit "a.png";
              mimeType := lit "image/png";
              content := payload37 ++ CRLFbytes |}).
  - left. reflexivity.
  - by_evaluation.
  - by_evaluation.
  - reflexivity.
  - reflexivity.
Defined.

(** * Further properties of the media service *)

Import MediaLinks Observations MoreScenarios.

(** ** What the splitter returns *)

Lemma emit_Forall (P : Buffer -> Prop) (segment : Buffer) :
  P segment -> Forall P (emit segment).
Proof.
  intros H. destruct segment; simpl; [constructor | now repeat constructor].
Qed.

Lemma firstAt_segment_absent (delimiter segment rest : Buffer) :
  delimiter <> [] ->
  firstAt delimiter (segment ++ delimiter ++ rest) (length segment) ->
  absent delimiter segment.
Proof.
  intros Hd [_ Hmin] j (pre & post & Hs & Hj).
  apply (Hmin j).
  - rewrite Hs, !length_app. destruct delimiter; [congruence | simpl; lia].
  - exists pre, (post ++ delimiter ++ rest). split; [|exact Hj].
    rewrite Hs. now rewrite <- !app_assoc.
Qed.

Lemma Split_absent (delimiter buffer : Buffer) (parts : list Buffer) :
  delimiter <> [] ->
  Split delimiter buffer parts -> Forall (absent delimiter) parts.
Proof.
  intros Hd. induction 1 as [r Ha | seg rest ps Hf _ IH].
  - now apply emit_Forall.
  - apply Forall_app. split; [|exact IH].
    apply emit_Forall. exact (@firstAt_segment_absent delimiter seg rest Hd Hf).
Qed.

Lemma Split_slices (delimiter buffer : Buffer) (parts : list Buffer) :
  Split delimiter buffer parts ->
  Forall (fun p => isSliceOf p buffer) parts.
Proof.
  induction 1 as [r _ | seg rest ps _ _ IH].
  - apply emit_Forall. exists [], []. now rewrite app_nil_r.
  - apply Forall_app. split.
    + apply emit_Forall. now exists [], (delimiter ++ rest).
    + apply (Forall_impl _ (P := fun p => isSliceOf p rest)); [|exact IH].
      intros p (pre & post & ->).
      exists (seg ++ delimiter ++ pre), post. now rewrite <- !app_assoc.
Qed.

Lemma totalLength_app (ps qs : list Buffer) :
  totalLength (ps ++ qs) = totalLength ps + totalLength qs.
Proof.
  unfold totalLength. now rewrite map_app, list_sum_app.
Qed.

Lemma totalLength_emit (segment : Buffer) :
  totalLength (emit segment) = length segment.
Proof.
  destruct segment; unfold totalLength; simpl; lia.
Qed.

Lemma Split_totalLength (delimiter buffer : Buffer) (parts : list Buffer) :
  Split delimiter buffer parts -> totalLength parts <= length buffer.
Proof.
  induction 1 as [r _ | seg rest ps _ _ IH].
  - now rewrite totalLength_emit.
  - rewrite totalLength_app, totalLength_emit, !length_app. lia.
Qed.

(** X1.  Every part that [splitBuffer] returns for a body and the delimiter
    of a boundary is a run of consecutive bytes of the body in which the
    delimiter does not occur, and the parts together are not longer than
    the body. *)
Theorem splitBuffer_parts_delimiter_free (body : Buffer) (boundary : jsstring) :
  exists parts,
    splitBuffer body (bufferFrom (lit "--" ++ boundary)) = Some parts
    /\ Forall (fun p =>
                 isSliceOf p body
                 /\ absent (bufferFrom (lit "--" ++ boundary)) p) parts
    /\ totalLength parts <= length body.
Proof.
  assert (bufferFrom (lit "--" ++ boundary) <> []) as Hd
    by (rewrite bufferFrom_dashes; discriminate).
  destruct (@splitBuffer_Split body _ Hd) as (parts & Hrun & Hsplit).
  exists parts. split; [exact Hrun|]. split.
  - apply Forall_forall. intros p Hp. split.
    + exact (proj1 (Forall_forall _ _) (Split_slices Hsplit) p Hp).
    + exact (proj1 (Forall_forall _ _) (Split_absent Hd Hsplit) p Hp).
  - exact (Split_totalLength Hsplit).
Qed.

(** ** What the decoder returns *)

Lemma scanParts_Some (parts : list Buffer) (fd : FileData) :
  scanParts parts = Some fd ->
  exists part, In part parts /\ parsePart part = Some fd.
Proof.
  induction parts as [|p ps IH]; simpl; [discriminate|].
  destruct (parsePart p) as [fd'|] eqn:E.
  - intros [= ->]. exists p. split; [now left | exact E].
  - intros H. destruct (IH H) as (q & Hq & Hfd).
    exists q. split; [now right | exact Hfd].
Qed.

(** A returned file comes from a part of the body. *)
Lemma decoded_from_part (request : FastifyRequest) (w : World) (fd : FileData) :
  fst (parseMultipartFile request w) = Returned (Some fd) ->
  exists rawBody part,
    body request = Some rawBody
    /\ isSliceOf part rawBody
    /\ parsePart part = Some fd.
Proof.
  unfold parseMultipartFile.
  destruct (extractBoundary (contentTypeHeader request)) as [e|boundary];
    [discriminate|].
  destruct (body request) as [rawBody|]; [|discriminate].
  destruct (length rawBody =? 0); [discriminate|].
  destruct (@splitBuffer_Split rawBody (bufferFrom (lit "--" ++ boundary)))
    as (ps & -> & Hsplit).
  - rewrite bufferFrom_dashes. discriminate.
  - simpl. intros [= H]. apply scanParts_Some in H as (part & Hin & Hfd).
    exists rawBody, part. repeat split; [|exact Hfd].
    exact (proj1 (Forall_forall _ _) (Split_slices Hsplit) part Hin).
Qed.

(** X2.  For a body that starts with the delimiter, the content returned
    for a file part is what stands between the first CRLF CRLF behind that
    delimiter and the next occurrence of the delimiter, whatever follows
    it: a file whose own bytes hold the delimiter is cut there. *)
Theorem content_ends_at_next_delimiter (contentType boundary : jsstring)
  (head taken rest : Buffer) (who : option User) (w : World)
  (Hct : extractBoundary (Some contentType) = inr boundary)
  (Hdelim :
     firstAt (bufferFrom (lit "--" ++ boundary))
       ((head ++ separator ++ taken)
        ++ bufferFrom (lit "--" ++ boundary) ++ rest)
       (length (head ++ separator ++ taken)))
  (Hsep : firstAt separator (head ++ separator ++ taken) (length head))
  (Hfile : isFilePart (toString head) = true) :
  parseMultipartFile
    {| contentTypeHeader := Some contentType;
       body :=
         Some (bufferFrom (lit "--" ++ boundary)
               ++ (head ++ separator ++ taken)
               ++ bufferFrom (lit "--" ++ boundary) ++ rest);
       user := who |} w
  = (Returned
       (Some {| filename := extractFilename (toString head);
                mimeType := extractMimeType (toString head);
                content := taken |}),
     w).
Proof.
  unfold parseMultipartFile. cbn [contentTypeHeader body]. rewrite Hct.
  set (d := bufferFrom (lit "--" ++ boundary)) in *.
  set (P := head ++ separator ++ taken) in *.
  assert (d <> []) as Hd by (unfold d; rewrite bufferFrom_dashes; discriminate).
  destruct (length (d ++ P ++ d ++ rest) =? 0) eqn:El.
  { apply Nat.eqb_eq in El. rewrite !length_app in El.
    destruct d; [congruence | simpl in El; lia]. }
  destruct (@splitBuffer_Split (d ++ P ++ d ++ rest) d Hd)
    as (ps & -> & Hsplit).
  destruct (@splitBuffer_Split rest d Hd) as (ps3 & _ & Hsplit3).
  assert (Split d ([] ++ d ++ P ++ d ++ rest) (emit [] ++ emit P ++ ps3))
    as Hmine.
  { apply Split_next.
    - split.
      + now exists [], (P ++ d ++ rest).
      + simpl. intros j Hj. lia.
    - apply Split_next; assumption. }
  rewrite (Split_functional Hsplit Hmine).
  assert (emit P = [P]) as ->.
  { unfold P. destruct head; reflexivity. }
  cbn [emit app scanParts]. unfold ret, P.
  rewrite (@parsePart_at head taken Hsep).
  now rewrite Hfile.
Qed.

(** X2, at a file ab--Xcd sent with boundary X: the content is ab. *)
Lemma content_ends_at_next_delimiter_cut :
  parseMultipartFile
    {| contentTypeHeader := Some headerX;
       body :=
         Some (bufferFrom (lit "--" ++ lit "X")
               ++ (headOfCut ++ separator ++ takenOfCut)
               ++ bufferFrom (lit "--" ++ lit "X") ++ restOfCut);
       user := None |} emptyWorld
  = (Returned
       (Some {| filename := extractFilename (toString headOfCut);
                mimeType := extractMimeType (toString headOfCut);
                content := takenOfCut |}),
     emptyWorld).
Proof.
  apply (@content_ends_at_next_delimiter headerX (lit "X") headOfCut
           takenOfCut restOfCut None emptyWorld).
  - reflexivity.
  - apply indexOf_0_firstAt. by_evaluation.
  - apply indexOf_0_firstAt. by_evaluation.
  - by_evaluation.
Defined.

(** X3.  Whenever the decoder returns a file, the request has a body, the
    content of the file is a run of consecutive bytes of that body, and it
    is at least four bytes shorter than the body. *)
Theorem decoded_content_within_body (request : FastifyRequest) (w : World)
  (fd : FileData)
  (Hparse : fst (parseMultipartFile request w) = Returned (Some fd)) :
  exists rawBody,
    body request = Some rawBody
    /\ isSliceOf (content fd) rawBody
    /\ length (content fd) + 4 <= length rawBody.
Proof.
  apply decoded_from_part in Hparse
    as (rawBody & part & Hb & (pre & post & Hs) & Hfd).
  apply parsePart_Some_inv in Hfd as (h & Hp & _).
  exists rawBody. split; [exact Hb|]. split.
  - exists (pre ++ h ++ separator), post.
    rewrite Hs, Hp. now rewrite <- !app_assoc.
  - rewrite Hs, Hp, !length_app. simpl. lia.
Qed.

(** X3, at scenario A. *)
Lemma decoded_content_within_body_scenarioA :
  exists rawBody,
    body requestA = Some rawBody
    /\ isSliceOf (payload37 ++ CRLFbytes) rawBody
    /\ length (payload37 ++ CRLFbytes) + 4 <= length rawBody.
Proof.
  apply (@decoded_content_within_body requestA emptyWorld
           {| filename := lit "a.png";
              mimeType := lit "image/png";
              content := payload37 ++ CRLFbytes |}).
  by_evaluation.
Defined.

(** ** The size check and the size of the body *)

Lemma parseMultipartFile_throws (request : FastifyRequest) (w : World)
  (e : Error) :
  fst (parseMultipartFile request w) = Thrown e ->
  e = ContentTypeMustBeMultipart \/ e = NoBoundaryFound.
Proof.
  unfold parseMultipartFile, extractBoundary.
  destruct (contentTypeHeader request) as [ct|].
  - destruct (falsy ct || negb (includes ct (lit "multipart/form-data"))).
    + intros [= <-]. now left.
    + destruct (regexMatch1 reBoundary ct).
      * destruct (body request) as [rawBody|]; [|discriminate].
        destruct (length rawBody =? 0); [discriminate|].
        destruct (splitBuffer rawBody _); discriminate.
      * intros [= <-]. now right.
  - intros [= <-]. now left.
Qed.

Section SizeCheck.
Variable extname : jsstring -> jsstring.
Variable pathJoin : jsstring -> jsstring -> jsstring.

Lemma uploadFile_within_limit (this : Service) (env : Ambient)
  (request : FastifyRequest) (w : World) (fd : FileData) :
  fst (parseMultipartFile request w) = Returned (Some fd) ->
  exceeds (length (content fd)) (maxFileSize this) = false ->
  isTooLarge (fst (uploadFile extname pathJoin this env request w)) = false.
Proof.
  intros Hp Hx. unfold uploadFile, bind.
  rewrite parseMultipartFile_run, Hp, Hx.
  unfold writeFileSync. destruct (writeThrows env); [reflexivity|].
  rewrite getImageDimensions_null.
  unfold mediaCreate. destruct (createThrows env); reflexivity.
Qed.

Lemma uploadAndCreateMedia_within_limit (this : Service) (env : Ambient)
  (request : FastifyRequest) (userId : jsstring) (w : World) (fd : FileData) :
  fst (parseMultipartFile request w) = Returned (Some fd) ->
  exceeds (length (content fd)) (maxFileSize this) = false ->
  isTooLarge
    (fst (uploadAndCreateMedia extname pathJoin this env request userId w))
  = false.
Proof.
  intros Hp Hx. unfold uploadAndCreateMedia, bind.
  rewrite parseMultipartFile_run, Hp, Hx.
  unfold writeFileSync. destruct (writeThrows env); [reflexivity|].
  rewrite getImageDimensions_null.
  unfold mediaCreate. destruct (createThrows env); reflexivity.
Qed.

Lemma uploadFile_not_decoded (this : Service) (env : Ambient)
  (request : FastifyRequest) (w : World) :
  (forall fd, fst (parseMultipartFile request w) <> Returned (Some fd)) ->
  isTooLarge (fst (uploadFile extname pathJoin this env request w)) = false.
Proof.
  intros Hn. unfold uploadFile, bind. rewrite parseMultipartFile_run.
  destruct (fst (parseMultipartFile request w)) as [[fd|]|e|] eqn:E;
    try reflexivity.
  - now destruct (Hn fd).
  - simpl. apply (parseMultipartFile_throws request w) in E as [-> | ->];
      reflexivity.
Qed.

Lemma uploadAndCreateMedia_not_decoded (this : Service) (env : Ambient)
  (request : FastifyRequest) (userId : jsstring) (w : World) :
  (forall fd, fst (parseMultipartFile request w) <> Returned (Some fd)) ->
  isTooLarge
    (fst (uploadAndCreateMedia extname pathJoin this env request userId w))
  = false.
Proof.
  intros Hn. unfold uploadAndCreateMedia, bind. rewrite parseMultipartFile_run.
  destruct (fst (parseMultipartFile request w)) as [[fd|]|e|] eqn:E;
    try reflexivity.
  - now destruct (Hn fd).
  - simpl. apply (parseMultipartFile_throws request w) in E as [-> | ->];
      reflexivity.
Qed.

End SizeCheck.

(** X4.  The upload methods throw File too large only for a body that is
    more than four bytes longer than the configured maximum: a request
    whose body has at most maximum + 4 bytes is never rejected for its
    size. *)
Theorem small_body_never_too_large
  (extname : jsstring -> jsstring) (pathJoin : jsstring -> jsstring -> jsstring)
  (this : Service) (env : Ambient) (request : FastifyRequest)
  (userId : jsstring) (w : World) (rawBody : Buffer) (maximum : Z)
  (Hbody : body request = Some rawBody)
  (Hmax : maxFileSize this = Some maximum)
  (Hlen : (Z.of_nat (length rawBody) <= maximum + 4)%Z) :
  isTooLarge (fst (uploadFile extname pathJoin this env request w)) = false
  /\ isTooLarge
       (fst (uploadAndCreateMedia extname pathJoin this env request userId w))
     = false.
Proof.
  destruct (fst (parseMultipartFile request w)) as [[fd|]|e|] eqn:E.
  - assert (exceeds (length (content fd)) (maxFileSize this) = false) as Hx.
    { apply decoded_from_part in E
        as (rawBody' & part & Hb & (pre & post & Hs) & Hfd).
      rewrite Hbody in Hb. injection Hb as <-.
      apply parsePart_Some_inv in Hfd as (h & Hp & _).
      rewrite Hmax. simpl. apply Z.ltb_ge.
      rewrite Hs, Hp, !length_app in Hlen. simpl in Hlen. lia. }
    split.
    + exact (uploadFile_within_limit extname pathJoin this env request w E Hx).
    + exact (uploadAndCreateMedia_within_limit extname pathJoin this env
               request userId w E Hx).
  - split;
      [apply uploadFile_not_decoded | apply uploadAndCreateMedia_not_decoded];
      intros fd; rewrite E; discriminate.
  - split;
      [apply uploadFile_not_decoded | apply uploadAndCreateMedia_not_decoded];
      intros fd; rewrite E; discriminate.
  - split;
      [apply uploadFile_not_decoded | apply uploadAndCreateMedia_not_decoded];
      intros fd; rewrite E; discriminate.
Qed.

(** X4, at scenario A with a limit of 200 bytes, the body having 142. *)
Lemma small_body_never_too_large_scenarioA :
  isTooLarge
    (fst (uploadFile simpleExtname simpleJoin
            {| uploadDir := lit "./uploads";
               maxFileSize := Some 200%Z;
               allowedMimeTypes := [] |} quietEnv requestA emptyWorld))
  = false
  /\ isTooLarge
       (fst (uploadAndCreateMedia simpleExtname simpleJoin
               {| uploadDir := lit "./uploads";
                  maxFileSize := Some 200%Z;
                  allowedMimeTypes := [] |} quietEnv requestA (lit "u1")
               emptyWorld))
     = false.
Proof.
  apply (@small_body_never_too_large simpleExtname simpleJoin
           {| uploadDir := lit "./uploads";
              maxFileSize := Some 200%Z;
              allowedMimeTypes := [] |} quietEnv requestA (lit "u1")
           emptyWorld bodyA 200%Z).
  - reflexivity.
  - reflexivity.
  - apply Z.leb_le. by_evaluation.
Defined.

(** ** How an accepted upload ends *)

(** X5.  When [writeFileSync] throws, both upload methods throw that
    error and the media table is as it was: no record is created for a file
    that was not written in full.  Of the files only the one under the
    storage key can have changed: it is untouched when the file could not
    be opened, and holds the first bytes of the content, as many as were
    written, otherwise. *)
Theorem failed_write_creates_no_record
  (extname : jsstring -> jsstring) (pathJoin : jsstring -> jsstring -> jsstring)
  (this : Service) (env : Ambient) (request : FastifyRequest)
  (userId : jsstring) (w : World) (fd : FileData)
  (Hparse : fst (parseMultipartFile request w) = Returned (Some fd))
  (Hsize : exceeds (length (content fd)) (maxFileSize this) = false)
  (Hwrite : writeThrows env = true) :
  uploadFile extname pathJoin this env request w
  = (Thrown WriteFailed,
     {| files :=
          match writtenBeforeThrow env with
          | None => files w
          | Some n =>
              (pathJoin (uploadDir this)
                 (decimal (now env) ++ lit "-" ++ randomSuffix env
                  ++ extname (orElse (filename fd) [])),
               firstn n (content fd)) :: files w
          end;
        media := media w |})
  /\ uploadAndCreateMedia extname pathJoin this env request userId w
     = (Thrown WriteFailed,
        {| files :=
             match writtenBeforeThrow env with
             | None => files w
             | Some n =>
                 (pathJoin (uploadDir this)
                    (decimal (now env) ++ lit "-" ++ randomSuffix env
                     ++ extname (orElse (filename fd) [])),
                  firstn n (content fd)) :: files w
             end;
           media := media w |}).
Proof.
  unfold uploadFile, uploadAndCreateMedia, bind.
  rewrite parseMultipartFile_run, Hparse, Hsize.
  unfold writeFileSync. rewrite Hwrite.
  destruct (writtenBeforeThrow env); destruct w; split; reflexivity.
Qed.

(** X5, at scenario A with a disk that is full after ten bytes. *)
Lemma failed_write_scenarioA :
  uploadFile simpleExtname simpleJoin defaultService diskFullEnv requestA
    emptyWorld
  = (Thrown WriteFailed,
     {| files :=
          [(lit "./uploads/1700000000000-k3j9x0q2z.png",
            firstn 10 (payload37 ++ CRLFbytes))];
        media := [] |})
  /\ uploadAndCreateMedia simpleExtname simpleJoin defaultService diskFullEnv
       requestA (lit "u1") emptyWorld
     = (Thrown WriteFailed,
        {| files :=
             [(lit "./uploads/1700000000000-k3j9x0q2z.png",
               firstn 10 (payload37 ++ CRLFbytes))];
           media := [] |}).
Proof.
  apply (@failed_write_creates_no_record simpleExtname simpleJoin
           defaultService diskFullEnv requestA (lit "u1") emptyWorld
           {| filename := lit "a.png";
              mimeType := lit "image/png";
              content := payload37 ++ CRLFbytes |}).
  - by_evaluation.
  - by_evaluation.
  - reflexivity.
Defined.

(** X6.  When the file is written and [prisma.media.create] throws, both
    upload methods throw that error; the media table is as it was, and the
    file stays written under its storage key: nothing removes it. *)
Theorem failed_create_leaves_file
  (extname : jsstring -> jsstring) (pathJoin : jsstring -> jsstring -> jsstring)
  (this : Service) (env : Ambient) (request : FastifyRequest)
  (userId : jsstring) (w : World) (fd : FileData)
  (Hparse : fst (parseMultipartFile request w) = Returned (Some fd))
  (Hsize : exceeds (length (content fd)) (maxFileSize this) = false)
  (Hwrite : writeThrows env = false)
  (Hcreate : createThrows env = true) :
  uploadFile extname pathJoin this env request w
  = (Thrown CreateFailed,
     {| files :=
          (pathJoin (uploadDir this)
             (decimal (now env) ++ lit "-" ++ randomSuffix env
              ++ extname (orElse (filename fd) [])),
           content fd) :: files w;
        media := media w |})
  /\ uploadAndCreateMedia extname pathJoin this env request userId w
     = (Thrown CreateFailed,
        {| files :=
             (pathJoin (uploadDir this)
                (decimal (now env) ++ lit "-" ++ randomSuffix env
                 ++ extname (orElse (filename fd) [])),
              content fd) :: files w;
           media := media w |}).
Proof.
  unfold uploadFile, uploadAndCreateMedia, bind.
  rewrite parseMultipartFile_run, Hparse, Hsize.
  unfold writeFileSync. rewrite Hwrite, getImageDimensions_null.
  unfold mediaCreate. rewrite Hcreate. split; reflexivity.
Qed.

(** X6, at scenario A with a database that refuses the row. *)
Lemma failed_create_scenarioA :
  uploadFile simpleExtname simpleJoin defaultService databaseDownEnv requestA
    emptyWorld
  = (Thrown CreateFailed,
     {| files :=
          [(lit "./uploads/1700000000000-k3j9x0q2z.png",
            payload37 ++ CRLFbytes)];
        media := [] |})
  /\ uploadAndCreateMedia simpleExtname simpleJoin defaultService
       databaseDownEnv requestA (lit "u1") emptyWorld
     = (Thrown CreateFailed,
        {| files :=
             [(lit "./uploads/1700000000000-k3j9x0q2z.png",
               payload37 ++ CRLFbytes)];
           media := [] |}).
Proof.
  apply (@failed_create_leaves_file simpleExtname simpleJoin defaultService
           databaseDownEnv requestA (lit "u1") emptyWorld
           {| filename := lit "a.png";
              mimeType := lit "image/png";
              content := payload37 ++ CRLFbytes |}).
  - by_evaluation.
  - by_evaluation.
  - reflexivity.
  - reflexivity.
Defined.

(** X7.  When nothing fails, [uploadAndCreateMedia] returns the row it
    created: its storage key is the timestamp, a dash, the random suffix
    and the extension of the file name; the file is written under the
    upload directory joined with that key and holds the decoded content;
    the url is the base url (BASE_URL, or http://localhost:4005 when that
    is unset or empty), /uploads/ and the key; the size is the length of
    the content and the owner is the user id passed in. *)
Theorem uploadAndCreateMedia_links_file_and_row
  (extname : jsstring -> jsstring) (pathJoin : jsstring -> jsstring -> jsstring)
  (this : Service) (env : Ambient) (request : FastifyRequest)
  (userId : jsstring) (w : World) (fd : FileData)
  (Hparse : fst (parseMultipartFile request w) = Returned (Some fd))
  (Hsize : exceeds (length (content fd)) (maxFileSize this) = false)
  (Hwrite : writeThrows env = false)
  (Hcreate : createThrows env = false) :
  exists row,
    uploadAndCreateMedia extname pathJoin this env request userId w
    = (Returned row,
       {| files := (pathJoin (uploadDir this) (storageKey row), content fd)
                   :: files w;
          media := media w ++ [row] |})
    /\ storageKey row
       = decimal (now env) ++ lit "-" ++ randomSuffix env
         ++ extname (orElse (filename fd) [])
    /\ url row
       = match BASE_URL env with
         | Some (c :: u) => c :: u
         | _ => lit "http://localhost:4005"
         end ++ lit "/uploads/" ++ storageKey row
    /\ id row = generatedId env
    /\ recMimeType row = mimeType fd
    /\ sizeBytes row = length (content fd)
    /\ width row = None
    /\ height row = None
    /\ ownerUserId row = userId.
Proof.
  unfold uploadAndCreateMedia, bind.
  rewrite parseMultipartFile_run, Hparse, Hsize.
  unfold writeFileSync. rewrite Hwrite, getImageDimensions_null.
  unfold mediaCreate. rewrite Hcreate. unfold ret.
  match goal with
  | |- exists row, (Returned ?r, _) = _ /\ _ => exists r
  end.
  split; [reflexivity|].
  cbn [storageKey url id recMimeType sizeBytes width height ownerUserId
       option_map].
  repeat split. destruct (BASE_URL env) as [[|c u]|]; reflexivity.
Qed.

(** X7, at scenario A with BASE_URL set. *)
Lemma uploadAndCreateMedia_links_scenarioA :
  exists row,
    uploadAndCreateMedia simpleExtname simpleJoin defaultService cdnEnv
      requestA (lit "u1") emptyWorld
    = (Returned row,
       {| files :=
            (simpleJoin (uploadDir defaultService) (storageKey row),
             payload37 ++ CRLFbytes) :: files emptyWorld;
          media := media emptyWorld ++ [row] |})
    /\ storageKey row
       = decimal (now cdnEnv) ++ lit "-" ++ randomSuffix cdnEnv
         ++ simpleExtname (orElse (lit "a.png") [])
    /\ url row
       = match BASE_URL cdnEnv with
         | Some (c :: u) => c :: u
         | _ => lit "http://localhost:4005"
         end ++ lit "/uploads/" ++ storageKey row
    /\ id row = generatedId cdnEnv
    /\ recMimeType row = lit "image/png"
    /\ sizeBytes row = length (payload37 ++ CRLFbytes)
    /\ width row = None
    /\ height row = None
    /\ ownerUserId row = lit "u1".
Proof.
  apply (@uploadAndCreateMedia_links_file_and_row simpleExtname simpleJoin
           defaultService cdnEnv requestA (lit "u1") emptyWorld
           {| filename := lit "a.png";
              mimeType := lit "image/png";
              content := payload37 ++ CRLFbytes |}).
  - by_evaluation.
  - by_evaluation.
  - reflexivity.
  - reflexivity.
Defined.

(** ** What is extracted from the header text *)

Lemma matchAt_plus_inv (cls : N -> bool) (r : list atom) (s g : jsstring) :
  matchAt (Group1Plus cls :: r) s = Some g ->
  g <> []
  /\ Forall (fun c => cls c = true) g
  /\ exists t, s = g ++ t /\ exists g', matchAt r t = Some g'.
Proof.
  revert g; induction s as [|c t IH]; intros g.
  - rewrite matchAt_plus_nil. discriminate.
  - rewrite matchAt_plus_cons. destruct (cls c) eqn:Ec; [|discriminate].
    destruct (matchAt (Group1Plus cls :: r) t) as [g1|] eqn:E.
    + intros [= <-]. destruct (IH g1 eq_refl) as (_ & Hall & t' & -> & Hr).
      repeat split; [discriminate | now constructor |].
      now exists t'.
    + destruct (matchAt r t) as [g'|] eqn:Er; [|discriminate].
      intros [= <-]. repeat split; [discriminate | now repeat constructor |].
      exists t. split; [reflexivity | now exists g'].
Qed.

Lemma matchAt_plus_quote (g post : jsstring) :
  g <> [] -> Forall (fun c => notQuote c = true) g ->
  matchAt [Group1Plus notQuote; Chars [dquote]] (g ++ dquote :: post) = Some g.
Proof.
  induction g as [|c g IH]; [congruence|]. intros _ Hall.
  inversion Hall as [|? ? Hc Hall']; subst.
  cbn [app]. rewrite matchAt_plus_cons, Hc.
  destruct g as [|c' g].
  - cbn [app]. rewrite matchAt_plus_cons.
    change (notQuote dquote) with false. cbn iota.
    rewrite matchAt_chars. cbn. reflexivity.
  - rewrite IH; [reflexivity | discriminate | assumption].
Qed.

Lemma matchAt_reFilename (s g : jsstring) :
  matchAt reFilename s = Some g <-> exists post, quotedFilename s [] g post.
Proof.
  unfold reFilename, quotedFilename. rewrite matchAt_chars. split.
  - destruct (stripPrefix N.eqb (lit "filename=" ++ [dquote]) s) as [s'|] eqn:E;
      [|discriminate].
    apply (stripPrefix_iff _ N.eqb_eq) in E as ->. intros H.
    apply matchAt_plus_inv in H as (Hne & Hall & t & -> & g' & Hq).
    rewrite matchAt_chars in Hq.
    destruct (stripPrefix N.eqb [dquote] t) as [post|] eqn:Et; [|discriminate].
    apply (stripPrefix_iff _ N.eqb_eq) in Et as ->.
    exists post. now repeat split.
  - intros (post & Hs & Hne & Hall).
    change ([] ++ ?x) with x in Hs. rewrite Hs.
    assert (stripPrefix N.eqb (lit "filename=" ++ [dquote])
              ((lit "filename=" ++ [dquote]) ++ g ++ [dquote] ++ post)
            = Some (g ++ [dquote] ++ post)) as ->
      by now apply (stripPrefix_iff _ N.eqb_eq).
    now apply matchAt_plus_quote.
Qed.

Lemma quotedFilename_suffix (hs pre g post : jsstring) :
  quotedFilename hs pre g post ->
  exists s, hs = pre ++ s /\ quotedFilename s [] g post.
Proof.
  intros (-> & Hne & Hall). eexists. split; [reflexivity|]. now repeat split.
Qed.

(** X8.  The file name taken from a header text is the text between the
    leftmost filename= followed by a double quote, a text that is not
    empty and a second double quote, and that second double quote: it is
    never empty and holds no double quote.  When the header text has no
    such place the file name is unknown. *)
Theorem extractFilename_between_quotes (hs : jsstring) :
  (exists pre post,
      quotedFilename hs pre (extractFilename hs) post
      /\ forall pre' g' post',
           quotedFilename hs pre' g' post' -> length pre <= length pre')
  \/ (extractFilename hs = lit "unknown"
      /\ forall pre g post, ~ quotedFilename hs pre g post).
Proof.
  unfold extractFilename.
  destruct (regexMatch1 reFilename hs) as [g|] eqn:E.
  - left. apply regexMatch1_Some in E as (pre & s & -> & Hm & Hleft).
    apply matchAt_reFilename in Hm as (post & Hq).
    exists pre, post. split.
    + destruct Hq as (-> & Hne & Hall). now repeat split.
    + intros pre' g' post' Hq'. apply Nat.nlt_ge. intros Hlt.
      apply quotedFilename_suffix in Hq' as (s' & Hs' & Hq').
      assert (matchAt reFilename s' = Some g') as Hm'
        by (apply matchAt_reFilename; now exists post').
      rewrite (Hleft pre' s' Hs' Hlt) in Hm'. discriminate.
  - right. split; [reflexivity|]. intros pre g post Hq.
    apply quotedFilename_suffix in Hq as (s' & Hs' & Hq).
    assert (matchAt reFilename s' = Some g) as Hm
      by (apply matchAt_reFilename; now exists post).
    rewrite (regexMatch1_None _ E pre s' Hs') in Hm. discriminate.
Qed.

Lemma matchAt_star_inv (cls : N -> bool) (r : list atom) (s g : jsstring) :
  matchAt (Star cls :: r) s = Some g ->
  exists ws t,
    s = ws ++ t /\ Forall (fun c => cls c = true) ws /\ matchAt r t = Some g.
Proof.
  revert g; induction s as [|c t IH]; intros g.
  - rewrite matchAt_star_nil. intros H. now exists [], [].
  - rewrite matchAt_star_cons. destruct (cls c) eqn:Ec.
    + destruct (matchAt (Star cls :: r) t) as [g1|] eqn:E.
      * intros [= <-]. destruct (IH g1 eq_refl) as (ws & t' & -> & Hall & Hr).
        exists (c :: ws), t'. repeat split; [now constructor | exact Hr].
      * intros H. now exists [], (c :: t).
    + intros H. now exists [], (c :: t).
Qed.

Lemma matchAt_plus_longest (cls : N -> bool) (s g : jsstring) :
  matchAt [Group1Plus cls] s = Some g ->
  exists t,
    s = g ++ t
    /\ g <> []
    /\ Forall (fun c => cls c = true) g
    /\ match t with
       | [] => True
       | c :: _ => cls c = false
       end.
Proof.
  revert g; induction s as [|c t IH]; intros g.
  - rewrite matchAt_plus_nil. discriminate.
  - rewrite matchAt_plus_cons. destruct (cls c) eqn:Ec; [|discriminate].
    destruct (matchAt [Group1Plus cls] t) as [g1|] eqn:E.
    + intros [= <-]. destruct (IH g1 eq_refl) as (t' & -> & _ & Hall & Hend).
      exists t'. repeat split; [discriminate | now constructor | exact Hend].
    + intros [= <-]. exists t.
      repeat split; [discriminate | now repeat constructor |].
      destruct t as [|c' t']; [exact I|].
      rewrite matchAt_plus_cons in E. destruct (cls c'); [|reflexivity].
      destruct (matchAt [Group1Plus cls] t'); discriminate.
Qed.

Lemma matchAt_plus_some (cls : N -> bool) (c : N) (t : jsstring) :
  cls c = true -> exists g, matchAt [Group1Plus cls] (c :: t) = Some g.
Proof.
  intros Hc. rewrite matchAt_plus_cons, Hc.
  destruct (matchAt [Group1Plus cls] t) as [g1|]; eexists; reflexivity.
Qed.

Lemma matchAt_star_plus_some (white cls : N -> bool) (ws g post : jsstring) :
  Forall (fun c => white c = true) ws ->
  g <> [] -> Forall (fun c => cls c = true) g ->
  exists g', matchAt [Star white; Group1Plus cls] (ws ++ g ++ post) = Some g'.
Proof.
  intros Hws Hne Hg. induction Hws as [|c ws Hc _ IH].
  - destruct g as [|c g]; [congruence|]. inversion Hg; subst.
    cbn [app]. rewrite matchAt_star_cons.
    destruct (@matchAt_plus_some cls c (g ++ post) H1) as [g' Hg'].
    destruct (white c).
    + destruct (matchAt [Star white; Group1Plus cls] (g ++ post));
        eexists; [reflexivity | exact Hg'].
    + now exists g'.
  - destruct IH as [g' Hg']. cbn [app]. rewrite matchAt_star_cons, Hc, Hg'.
    now exists g'.
Qed.

Lemma contentTypeLine_matches (s g : jsstring) :
  matchAt reContentType s = Some g ->
  exists ws post, contentTypeLine s [] ws g post.
Proof.
  unfold reContentType, contentTypeLine. rewrite matchAt_chars.
  destruct (stripPrefix N.eqb (lit "Content-Type:") s) as [s'|] eqn:E;
    [|discriminate].
  apply (stripPrefix_iff _ N.eqb_eq) in E as ->. intros H.
  apply matchAt_star_inv in H as (ws & t & -> & Hws & H).
  apply matchAt_plus_longest in H as (post & -> & Hne & Hg & Hend).
  exists ws, post. repeat split; try assumption.
  destruct post as [|c post]; [reflexivity | exact Hend].
Qed.

Lemma contentTypeLine_suffix (hs pre ws g post : jsstring) :
  contentTypeLine hs pre ws g post ->
  exists s g',
    hs = pre ++ s /\ matchAt reContentType s = Some g'.
Proof.
  intros (-> & Hws & Hne & Hg & _).
  destruct (@matchAt_star_plus_some isWhiteSpace notCRLF ws g post
              Hws Hne Hg) as [g' Hg'].
  exists (lit "Content-Type:" ++ ws ++ g ++ post), g'.
  split; [reflexivity|].
  unfold reContentType. rewrite matchAt_chars.
  assert (stripPrefix N.eqb (lit "Content-Type:")
            (lit "Content-Type:" ++ ws ++ g ++ post)
          = Some (ws ++ g ++ post)) as ->
    by now apply (stripPrefix_iff _ N.eqb_eq).
  exact Hg'.
Qed.

Lemma trimStart_split (s : jsstring) :
  exists ws,
    s = ws ++ trimStart s /\ Forall (fun c => isWhiteSpace c = true) ws.
Proof.
  induction s as [|c t (ws & IH & Hws)]; [now exists []|].
  simpl. destruct (isWhiteSpace c) eqn:Ec.
  - exists (c :: ws). split; [now rewrite IH at 1 | now constructor].
  - now exists [].
Qed.

Lemma trimStart_head (s : jsstring) :
  notWhite (hd_error (trimStart s)) = true.
Proof.
  induction s as [|c t IH]; [reflexivity|].
  simpl. destruct (isWhiteSpace c) eqn:Ec; [exact IH|].
  simpl. now rewrite Ec.
Qed.

Lemma trimStart_Forall (P : N -> Prop) (s : jsstring) :
  Forall P s -> Forall P (trimStart s).
Proof.
  induction 1 as [|c t Hc Ht IH]; [constructor|].
  simpl. destruct (isWhiteSpace c); [exact IH | now constructor].
Qed.

Lemma trim_Forall (P : N -> Prop) (s : jsstring) :
  Forall P s -> Forall P (trim s).
Proof.
  intros H. unfold trim.
  apply Forall_rev, trimStart_Forall, Forall_rev, trimStart_Forall, H.
Qed.

Lemma trim_ends (s : jsstring) :
  notWhite (hd_error (trim s)) = true /\ notWhite (lastUnit (trim s)) = true.
Proof.
  unfold trim, lastUnit. rewrite rev_involutive. split; [|apply trimStart_head].
  pose proof (trimStart_head s) as Hh.
  destruct (trimStart_split (rev (trimStart s))) as (ws & Hs & _).
  apply (f_equal (@rev N)) in Hs. rewrite rev_involutive, rev_app_distr in Hs.
  destruct (rev (trimStart (rev (trimStart s)))) as [|c z]; [reflexivity|].
  rewrite Hs in Hh. exact Hh.
Qed.

(** X9.  The MIME type taken from a header text holds neither CR nor LF
    and neither begins nor ends with white space.  It is the trimmed text
    that follows Content-Type: and white space up to the end of the line,
    where the header text has such a place, and application/octet-stream
    where it has none. *)
Theorem extractMimeType_trimmed_line (hs : jsstring) :
  Forall (fun c => notCRLF c = true) (extractMimeType hs)
  /\ notWhite (hd_error (extractMimeType hs)) = true
  /\ notWhite (lastUnit (extractMimeType hs)) = true
  /\ ((exists pre ws g post,
          contentTypeLine hs pre ws g post
          /\ extractMimeType hs = trim g)
      \/ (extractMimeType hs = defaultMimeType
          /\ forall pre ws g post, ~ contentTypeLine hs pre ws g post)).
Proof.
  unfold extractMimeType.
  destruct (regexMatch1 reContentType hs) as [g|] eqn:E.
  - apply regexMatch1_Some in E as (pre & s & -> & Hm & _).
    apply contentTypeLine_matches in Hm as (ws & post & Hl).
    pose proof Hl as (Hs & Hws & Hne & Hg & Hend).
    split; [now apply trim_Forall|].
    split; [apply trim_ends|]. split; [apply trim_ends|].
    left. exists pre, ws, g, post. split; [|reflexivity].
    change ([] ++ ?x) with x in Hs. rewrite Hs. now repeat split.
  - split; [now repeat constructor|].
    split; [reflexivity|]. split; [reflexivity|].
    right. split; [reflexivity|]. intros pre ws g post Hl.
    apply contentTypeLine_suffix in Hl as (s & g' & Hs & Hm).
    rewrite (regexMatch1_None _ E pre s Hs) in Hm. discriminate.
Qed.

(** ** Linking media to a post *)

From Stdlib Require Import Permutation.

Lemma jsstring_eqb_eq (a b : jsstring) : jsstring_eqb a b = true <-> a = b.
Proof.
  unfold jsstring_eqb. destruct (list_eq_dec N.eq_dec a b); split;
    congruence.
Qed.

Lemma existsb_jsstring (x : jsstring) (l : list jsstring) :
  existsb (jsstring_eqb x) l = true <-> In x l.
Proof.
  rewrite existsb_exists. split.
  - intros (y & Hy & He). apply jsstring_eqb_eq in He. now subst.
  - intros H. exists x. split; [exact H | now apply jsstring_eqb_eq].
Qed.

Lemma junctionRows_spec (index : nat) (postId : jsstring)
  (existing : list MediaRecord) (r : PostMedia) :
  In r (junctionRows index postId existing) ->
  pmPostId r = postId /\ In (pmMediaId r) (map (@id) existing).
Proof.
  revert index; induction existing as [|m rest IH]; intros index; simpl.
  - intros [].
  - intros [<- | H]; [split; [reflexivity | now left]|].
    destruct (IH _ H) as [Hp Hm]. split; [exact Hp | now right].
Qed.

Lemma junctionRows_length (index : nat) (postId : jsstring)
  (existing : list MediaRecord) :
  length (junctionRows index postId existing) = length existing.
Proof.
  revert index; induction existing as [|m rest IH]; intros index; simpl;
    [reflexivity | now rewrite IH].
Qed.

Section DatabaseFacts.
Variable arrange : list MediaRecord -> list MediaRecord.
Variable conflicts : PostMedia -> PostMedia -> bool.
Hypothesis arrange_perm : forall rows, Permutation (arrange rows) rows.

Lemma createManySkipDuplicates_spec (rows table : list PostMedia) :
  exists inserted,
    createManySkipDuplicates conflicts rows table
    = (length inserted, table ++ inserted)
    /\ incl inserted rows
    /\ length inserted <= length rows.
Proof.
  revert table; induction rows as [|r rest IH]; intros table; simpl.
  - exists []. rewrite app_nil_r.
    split; [reflexivity|]. split; [apply incl_refl | simpl; lia].
  - destruct (existsb (conflicts r) table).
    + destruct (IH table) as (ins & -> & Hincl & Hlen).
      exists ins. split; [reflexivity|].
      split; [now apply incl_tl | simpl; lia].
    + destruct (IH (table ++ [r])) as (ins & -> & Hincl & Hlen).
      exists (r :: ins). rewrite <- app_assoc.
      split; [reflexivity|]. split.
      * apply incl_cons; [now left | now apply incl_tl].
      * simpl. lia.
Qed.

Lemma existing_spec (requested : list jsstring) (table : list MediaRecord)
  (m : MediaRecord) :
  In m (arrange (filter (idIn requested) table)) <->
  In m table /\ In (id m) requested.
Proof.
  split.
  - intros H. apply (Permutation_in _ (arrange_perm _)) in H.
    apply filter_In in H as [Hin Hid]. split; [exact Hin|].
    now apply existsb_jsstring.
  - intros [Hin Hid].
    apply (Permutation_in _ (Permutation_sym (arrange_perm _))).
    apply filter_In. split; [exact Hin | now apply existsb_jsstring].
Qed.

(** X10.  [associateMediaWithPost] throws Post not found exactly when no
    post has the id, and No valid media IDs provided exactly when the post
    exists and no requested id is the id of a media row; in both cases the
    database is as it was.  Otherwise it reports success with the ids of
    the media rows whose id was requested: requested ids that name no row
    are dropped without an error, and the owner of a row is not looked
    at.  It then adds rows for this post and these media only, as many as
    it reports, and changes neither the media nor the posts. *)
Theorem associateMediaWithPost_outcomes (postId : jsstring)
  (requested : list jsstring) (s : Store) :
  match associateMediaWithPost arrange conflicts postId requested s with
  | (inl (PostNotFound p), s') =>
      p = postId /\ ~ In postId (posts s) /\ s' = s
  | (inl NoValidMediaIds, s') =>
      In postId (posts s)
      /\ (forall m, In m (media (world s)) -> ~ In (id m) requested)
      /\ s' = s
  | (inl MediaIsNull, _) => False
  | (inr a, s') =>
      In postId (posts s)
      /\ success a = true
      /\ (forall i,
            In i (mediaIds a) <->
            In i requested /\ exists m, In m (media (world s)) /\ id m = i)
      /\ mediaIds a <> []
      /\ associationsCreated a <= length (mediaIds a)
      /\ world s' = world s
      /\ posts s' = posts s
      /\ exists inserted,
           postMedia s' = postMedia s ++ inserted
           /\ length inserted = associationsCreated a
           /\ Forall (fun r =>
                        pmPostId r = postId /\ In (pmMediaId r) (mediaIds a))
                     inserted
  end.
Proof.
  unfold associateMediaWithPost.
  destruct (existsb (jsstring_eqb postId) (posts s)) eqn:Ep.
  2:{ split; [reflexivity|]. split; [|reflexivity].
      intros Hin. apply existsb_jsstring in Hin. congruence. }
  apply existsb_jsstring in Ep.
  set (existing := arrange (filter (idIn requested) (media (world s)))).
  destruct (length existing =? 0) eqn:El.
  - apply Nat.eqb_eq, length_zero_iff_nil in El.
    split; [exact Ep|]. split; [|reflexivity].
    intros m Hm Hid.
    assert (In m existing) as Hin by (apply existing_spec; now split).
    rewrite El in Hin. exact Hin.
  - apply Nat.eqb_neq in El.
    destruct (createManySkipDuplicates_spec (junctionRows 0 postId existing)
                (postMedia s)) as (ins & -> & Hincl & Hlen).
    cbn [success mediaIds associationsCreated world posts postMedia].
    split; [exact Ep|]. split; [reflexivity|]. split.
    { intros i. split.
      - intros Hi. apply in_map_iff in Hi as (m & <- & Hm).
        apply existing_spec in Hm as [Hm Hid]. split; [exact Hid | now exists m].
      - intros (Hi & m & Hm & <-). apply in_map. apply existing_spec.
        now split. }
    split.
    { intros Hnil. apply map_eq_nil in Hnil. apply El. now rewrite Hnil. }
    split.
    { rewrite length_map, junctionRows_length in *. exact Hlen. }
    split; [reflexivity|]. split; [reflexivity|].
    exists ins. split; [reflexivity|]. split; [reflexivity|].
    apply Forall_forall. intros r Hr.
    exact (junctionRows_spec _ _ _ _ (Hincl r Hr)).
Qed.

End DatabaseFacts.

(** X10, at a store with three media and a request for m3, for an id
    that names no row, and for m1. *)
Lemma associateMediaWithPost_outcomes_smallStore :
  match associateMediaWithPost tableOrder samePair (lit "p1")
          [lit "m3"; lit "zz"; lit "m1"] smallStore with
  | (inl (PostNotFound p), s') =>
      p = lit "p1" /\ ~ In (lit "p1") (posts smallStore) /\ s' = smallStore
  | (inl NoValidMediaIds, s') =>
      In (lit "p1") (posts smallStore)
      /\ (forall m,
            In m (media (world smallStore)) ->
            ~ In (id m) [lit "m3"; lit "zz"; lit "m1"])
      /\ s' = smallStore
  | (inl MediaIsNull, _) => False
  | (inr a, s') =>
      In (lit "p1") (posts smallStore)
      /\ success a = true
      /\ (forall i,
            In i (mediaIds a) <->
            In i [lit "m3"; lit "zz"; lit "m1"]
            /\ exists m, In m (media (world smallStore)) /\ id m = i)
      /\ mediaIds a <> []
      /\ associationsCreated a <= length (mediaIds a)
      /\ world s' = world smallStore
      /\ posts s' = posts smallStore
      /\ exists inserted,
           postMedia s' = postMedia smallStore ++ inserted
           /\ length inserted = associationsCreated a
           /\ Forall (fun r =>
                        pmPostId r = lit "p1"
                        /\ In (pmMediaId r) (mediaIds a))
                     inserted
  end.
Proof.
  apply (@associateMediaWithPost_outcomes tableOrder samePair).
  intros rows. apply Permutation_refl.
Defined.

Lemma find_by_id (table : list MediaRecord) (m : MediaRecord) :
  NoDup (map (@id) table) -> In m table ->
  find (fun x => jsstring_eqb (id x) (id m)) table = Some m.
Proof.
  induction table as [|x rest IH]; simpl; [intros _ []|].
  intros Hnd Hin. inversion Hnd as [|? ? Hx Hnd']; subst.
  destruct (jsstring_eqb (id x) (id m)) eqn:E.
  - apply jsstring_eqb_eq in E. destruct Hin as [-> | Hin]; [reflexivity|].
    exfalso. apply Hx. rewrite E. now apply in_map.
  - destruct Hin as [-> | Hin]; [|now apply IH].
    assert (jsstring_eqb (id m) (id m) = true) by now apply jsstring_eqb_eq.
    congruence.
Qed.

Lemma includeMedia_junctionRows (table existing : list MediaRecord)
  (index : nat) (postId : jsstring) :
  NoDup (map (@id) table) -> incl existing table ->
  includeMedia table (junctionRows index postId existing) = Some existing.
Proof.
  intros Hnd. revert index; induction existing as [|m rest IH];
    intros index Hincl; simpl; [reflexivity|].
  rewrite (@find_by_id table m Hnd) by (apply Hincl; now left).
  rewrite IH; [reflexivity|]. intros x Hx. apply Hincl. now right.
Qed.

Lemma orderByOrderAsc_junctionRows (existing : list MediaRecord)
  (index : nat) (postId : jsstring) :
  orderByOrderAsc (junctionRows index postId existing)
  = junctionRows index postId existing.
Proof.
  unfold orderByOrderAsc.
  revert index; induction existing as [|m rest IH]; intros index; simpl;
    [reflexivity|].
  rewrite IH. destruct rest as [|m' rest']; simpl; [reflexivity|].
  assert ((S index <? index) = false) as -> by (apply Nat.ltb_ge; lia).
  reflexivity.
Qed.

Lemma filter_post_junctionRows (existing : list MediaRecord) (index : nat)
  (postId q : jsstring) :
  filter (fun r => jsstring_eqb (pmPostId r) q)
         (junctionRows index postId existing)
  = if jsstring_eqb postId q then junctionRows index postId existing else [].
Proof.
  revert index; induction existing as [|m rest IH]; intros index; simpl.
  - now destruct (jsstring_eqb postId q).
  - rewrite IH. now destruct (jsstring_eqb postId q).
Qed.

Lemma filter_none (X : Type) (f : X -> bool) (l : list X) :
  Forall (fun x => f x = false) l -> filter f l = [].
Proof.
  induction 1 as [|x l Hx _ IH]; simpl; [reflexivity | now rewrite Hx].
Qed.

Section DatabaseRoundTrip.
Variable arrange : list MediaRecord -> list MediaRecord.
Variable conflicts : PostMedia -> PostMedia -> bool.
Hypothesis arrange_perm : forall rows, Permutation (arrange rows) rows.
Hypothesis conflicts_key :
  forall a b,
    conflicts a b = true ->
    pmPostId a = pmPostId b /\ pmMediaId a = pmMediaId b.

(** Rows for a post that has none yet, for media with distinct ids, are
    all inserted. *)
Lemma createMany_junctionRows (existing : list MediaRecord) (index : nat)
  (postId : jsstring) (table : list PostMedia) :
  NoDup (map (@id) existing) ->
  Forall (fun r =>
            pmPostId r = postId -> ~ In (pmMediaId r) (map (@id) existing))
         table ->
  createManySkipDuplicates conflicts (junctionRows index postId existing) table
  = (length existing, table ++ junctionRows index postId existing).
Proof.
  revert index table; induction existing as [|m rest IH];
    intros index table Hnd Hfree; simpl.
  - now rewrite app_nil_r.
  - inversion Hnd as [|? ? Hm Hnd']; subst.
    destruct (existsb
                (conflicts
                   {| pmPostId := postId; pmMediaId := id m;
                      pmOrder := index |}) table) eqn:Ec.
    + exfalso. apply existsb_exists in Ec as (x & Hx & Hc).
      apply conflicts_key in Hc as [Hp Hi]. simpl in Hp, Hi.
      apply (proj1 (Forall_forall _ _) Hfree x Hx); [now symmetry|].
      rewrite <- Hi. now left.
    + rewrite IH; [now rewrite <- app_assoc | exact Hnd' |].
      apply Forall_app. split.
      * apply (Forall_impl _ (P := fun r =>
                 pmPostId r = postId ->
                 ~ In (pmMediaId r) (map (@id) (m :: rest))));
          [|exact Hfree].
        intros r Hr Hp Hin. apply (Hr Hp). now right.
      * constructor; [|constructor]. intros _ Hin. now apply Hm.
Qed.

Lemma existing_incl (requested : list jsstring) (table : list MediaRecord) :
  incl (arrange (filter (idIn requested) table)) table.
Proof.
  intros m Hm. apply (Permutation_in _ (arrange_perm _)) in Hm.
  now apply filter_In in Hm.
Qed.

Lemma NoDup_map_filter (f : MediaRecord -> bool) (table : list MediaRecord) :
  NoDup (map (@id) table) -> NoDup (map (@id) (filter f table)).
Proof.
  induction table as [|x rest IH]; simpl; [intros H; exact H|].
  intros Hnd. inversion Hnd as [|? ? Hx Hnd']; subst.
  destruct (f x); [|now apply IH]. simpl. constructor; [|now apply IH].
  intros Hin. apply Hx. apply in_map_iff in Hin as (y & Hy & Hin).
  apply filter_In in Hin as [Hin _]. rewrite <- Hy. now apply in_map.
Qed.

Lemma existing_NoDup (requested : list jsstring) (table : list MediaRecord) :
  NoDup (map (@id) table) ->
  NoDup (map (@id) (arrange (filter (idIn requested) table))).
Proof.
  intros Hnd.
  apply (Permutation_NoDup
           (l := map (@id) (filter (idIn requested) table))).
  - apply Permutation_map, Permutation_sym, arrange_perm.
  - now apply NoDup_map_filter.
Qed.

(** X11.  When two rows of PostMedia can be in conflict only if they have
    the same post and the same media: for a post that exists and has no
    media linked, in a media table whose ids are distinct, when at least one
    requested id names a media row, [associateMediaWithPost] links every
    such row, and [getPostMedia] then returns the responses of exactly these
    rows, in the order in which they were linked; before, it returns the
    empty list; and what it returns for any other post is not changed. *)
Theorem associate_then_getPostMedia (postId : jsstring)
  (requested : list jsstring) (s : Store)
  (Hpost : In postId (posts s))
  (Hids : NoDup (map (@id) (media (world s))))
  (Hnone : Forall (fun r => pmPostId r <> postId) (postMedia s))
  (Hsome : arrange (filter (idIn requested) (media (world s))) <> []) :
  getPostMedia postId s = inr []
  /\ fst (associateMediaWithPost arrange conflicts postId requested s)
     = inr {| success := true;
              associationsCreated :=
                length (arrange (filter (idIn requested) (media (world s))));
              mediaIds :=
                map (@id)
                    (arrange (filter (idIn requested) (media (world s)))) |}
  /\ getPostMedia postId
       (snd (associateMediaWithPost arrange conflicts postId requested s))
     = inr (map toResponse
                (arrange (filter (idIn requested) (media (world s)))))
  /\ forall q,
       q <> postId ->
       getPostMedia q
         (snd (associateMediaWithPost arrange conflicts postId requested s))
       = getPostMedia q s.
Proof.
  set (existing := arrange (filter (idIn requested) (media (world s)))) in *.
  assert (filter (fun r => jsstring_eqb (pmPostId r) postId) (postMedia s)
          = []) as Hempty.
  { apply filter_none.
    apply (Forall_impl _ (P := fun r => pmPostId r <> postId));
      [|exact Hnone].
    intros r Hr. apply not_true_iff_false. intros E.
    now apply jsstring_eqb_eq in E. }
  split.
  { unfold getPostMedia. now rewrite Hempty. }
  unfold associateMediaWithPost. fold existing.
  assert (existsb (jsstring_eqb postId) (posts s) = true) as ->
    by now apply existsb_jsstring.
  assert ((length existing =? 0) = false) as ->.
  { apply Nat.eqb_neq. intros El. apply length_zero_iff_nil in El.
    now apply Hsome. }
  rewrite createMany_junctionRows.
  - cbn [fst snd]. split; [reflexivity|]. split.
    + unfold getPostMedia. cbn [postMedia world].
      rewrite filter_app, Hempty, filter_post_junctionRows.
      assert (jsstring_eqb postId postId = true) as ->
        by now apply jsstring_eqb_eq.
      cbn [app]. rewrite orderByOrderAsc_junctionRows.
      rewrite includeMedia_junctionRows;
        [reflexivity | exact Hids | apply existing_incl].
    + intros q Hq. unfold getPostMedia. cbn [postMedia world].
      rewrite filter_app, filter_post_junctionRows.
      assert (jsstring_eqb postId q = false) as ->.
      { apply not_true_iff_false. intros E. apply jsstring_eqb_eq in E.
        now apply Hq. }
      now rewrite app_nil_r.
  - now apply existing_NoDup.
  - apply (Forall_impl _ (P := fun r => pmPostId r <> postId));
      [|exact Hnone].
    intros r Hr Hp. now destruct (Hr Hp).
Qed.

End DatabaseRoundTrip.

Lemma samePair_key (a b : PostMedia) :
  samePair a b = true ->
  pmPostId a = pmPostId b /\ pmMediaId a = pmMediaId b.
Proof.
  unfold samePair. rewrite andb_true_iff, !jsstring_eqb_eq. tauto.
Qed.

Lemma threeMedia_ids : NoDup (map (@id) threeMedia).
Proof.
  repeat constructor; simpl; intuition discriminate.
Qed.

(** X11, at the store with three media, for the post p1 and a request for
    m3, for an id that names no row, and for m1. *)
Lemma associate_then_getPostMedia_smallStore :
  getPostMedia (lit "p1") smallStore = inr []
  /\ fst (associateMediaWithPost tableOrder samePair (lit "p1")
            [lit "m3"; lit "zz"; lit "m1"] smallStore)
     = inr {| success := true;
              associationsCreated :=
                length (tableOrder
                          (filter (idIn [lit "m3"; lit "zz"; lit "m1"])
                                  (media (world smallStore))));
              mediaIds :=
                map (@id)
                    (tableOrder
                       (filter (idIn [lit "m3"; lit "zz"; lit "m1"])
                               (media (world smallStore)))) |}
  /\ getPostMedia (lit "p1")
       (snd (associateMediaWithPost tableOrder samePair (lit "p1")
               [lit "m3"; lit "zz"; lit "m1"] smallStore))
     = inr (map toResponse
                (tableOrder
                   (filter (idIn [lit "m3"; lit "zz"; lit "m1"])
                           (media (world smallStore)))))
  /\ forall q,
       q <> lit "p1" ->
       getPostMedia q
         (snd (associateMediaWithPost tableOrder samePair (lit "p1")
                 [lit "m3"; lit "zz"; lit "m1"] smallStore))
       = getPostMedia q smallStore.
Proof.
  apply (@associate_then_getPostMedia tableOrder samePair
           (fun rows => Permutation_refl rows) samePair_key).
  - now left.
  - exact threeMedia_ids.
  - constructor.
  - vm_compute. discriminate.
Defined.

Section FreshRow.
Variable arrange : list MediaRecord -> list MediaRecord.
Variable conflicts : PostMedia -> PostMedia -> bool.
Hypothesis arrange_perm : forall rows, Permutation (arrange rows) rows.
Hypothesis conflicts_key :
  forall a b,
    conflicts a b = true ->
    pmPostId a = pmPostId b /\ pmMediaId a = pmMediaId b.

(** Linking a row that was just appended under an id no other row has. *)
Lemma link_fresh_row (old : list MediaRecord) (row : MediaRecord)
  (fs : list (jsstring * Buffer)) (ps : list jsstring) (pm : list PostMedia)
  (postId : jsstring) :
  NoDup (map (@id) old) ->
  ~ In (id row) (map (@id) old) ->
  In postId ps ->
  Forall (fun r => pmPostId r <> postId) pm ->
  fst (associateMediaWithPost arrange conflicts postId [id row]
         {| world := {| files := fs; media := old ++ [row] |};
            posts := ps;
            postMedia := pm |})
  = inr {| success := true;
           associationsCreated := 1;
           mediaIds := [id row] |}
  /\ getPostMedia postId
       (snd (associateMediaWithPost arrange conflicts postId [id row]
               {| world := {| files := fs; media := old ++ [row] |};
                  posts := ps;
                  postMedia := pm |}))
     = inr [toResponse row].
Proof.
  intros Hnd Hfresh Hpost Hnone.
  assert (arrange (filter (idIn [id row]) (old ++ [row])) = [row]) as Hex.
  { assert (filter (idIn [id row]) (old ++ [row]) = [row]) as ->.
    { rewrite filter_app. rewrite filter_none.
      - simpl. unfold idIn. simpl.
        assert (jsstring_eqb (id row) (id row) = true) as ->
          by now apply jsstring_eqb_eq.
        reflexivity.
      - apply Forall_forall. intros x Hx. apply not_true_iff_false.
        unfold idIn. simpl. rewrite orb_false_r. intros E.
        apply jsstring_eqb_eq in E. apply Hfresh. rewrite <- E.
        now apply in_map. }
    apply Permutation_length_1_inv, Permutation_sym, arrange_perm. }
  assert (filter (fun r => jsstring_eqb (pmPostId r) postId) pm = [])
    as Hempty.
  { apply filter_none.
    apply (Forall_impl _ (P := fun r => pmPostId r <> postId));
      [|exact Hnone].
    intros r Hr. apply not_true_iff_false. intros E.
    now apply jsstring_eqb_eq in E. }
  unfold associateMediaWithPost. cbn [world media posts postMedia].
  rewrite Hex.
  assert (existsb (jsstring_eqb postId) ps = true) as ->
    by now apply existsb_jsstring.
  cbn [length Nat.eqb].
  rewrite (@createMany_junctionRows conflicts conflicts_key [row] 0 postId pm).
  - cbn [fst snd length map]. split; [reflexivity|].
    unfold getPostMedia. cbn [postMedia world media].
    rewrite filter_app, Hempty, filter_post_junctionRows.
    assert (jsstring_eqb postId postId = true) as ->
      by now apply jsstring_eqb_eq.
    cbn [app]. rewrite orderByOrderAsc_junctionRows.
    rewrite includeMedia_junctionRows; [reflexivity | |].
    + rewrite map_app. apply NoDup_app; [exact Hnd | |].
      * simpl. constructor; [intros [] | constructor].
      * intros x Hx [<- | []]. now apply Hfresh.
    + intros x [<- | []]. apply in_or_app. right. now left.
  - simpl. constructor; [intros [] | constructor].
  - apply (Forall_impl _ (P := fun r => pmPostId r <> postId));
      [|exact Hnone].
    intros r Hr Hp. now destruct (Hr Hp).
Qed.

End FreshRow.

(** X12.  When two rows of PostMedia can be in conflict only if they have
    the same post and the same media, and the ids of the media table are
    distinct: a file uploaded with [uploadAndCreateMedia] under an id that
    no media row has yet, then linked by [associateMediaWithPost] to a post
    that exists and has no media, is what [getPostMedia] returns for that
    post: one response, with the generated id, the url and the MIME type
    of the upload, and no width or height. *)
Theorem uploaded_file_shows_in_post
  (arrange : list MediaRecord -> list MediaRecord)
  (conflicts : PostMedia -> PostMedia -> bool)
  (arrange_perm : forall rows, Permutation (arrange rows) rows)
  (conflicts_key :
     forall a b,
       conflicts a b = true ->
       pmPostId a = pmPostId b /\ pmMediaId a = pmMediaId b)
  (extname : jsstring -> jsstring) (pathJoin : jsstring -> jsstring -> jsstring)
  (this : Service) (env : Ambient) (request : FastifyRequest)
  (userId postId : jsstring) (s : Store) (fd : FileData)
  (Hparse : fst (parseMultipartFile request (world s)) = Returned (Some fd))
  (Hsize : exceeds (length (content fd)) (maxFileSize this) = false)
  (Hwrite : writeThrows env = false)
  (Hcreate : createThrows env = false)
  (Hids : NoDup (map (@id) (media (world s))))
  (Hfresh : ~ In (generatedId env) (map (@id) (media (world s))))
  (Hpost : In postId (posts s))
  (Hnone : Forall (fun r => pmPostId r <> postId) (postMedia s)) :
  exists row w',
    uploadAndCreateMedia extname pathJoin this env request userId (world s)
    = (Returned row, w')
    /\ fst (associateMediaWithPost arrange conflicts postId [id row]
              {| world := w'; posts := posts s; postMedia := postMedia s |})
       = inr {| success := true;
                associationsCreated := 1;
                mediaIds := [generatedId env] |}
    /\ getPostMedia postId
         (snd (associateMediaWithPost arrange conflicts postId [id row]
                 {| world := w'; posts := posts s;
                    postMedia := postMedia s |}))
       = inr [{| resId := generatedId env;
                 resUrl := url row;
                 resMimeType := mimeType fd;
                 resWidth := None;
                 resHeight := None |}].
Proof.
  unfold uploadAndCreateMedia, bind.
  rewrite parseMultipartFile_run, Hparse, Hsize.
  unfold writeFileSync. rewrite Hwrite, getImageDimensions_null.
  unfold mediaCreate. rewrite Hcreate. unfold ret.
  cbn [files media option_map url recMimeType sizeBytes width height
       storageKey ownerUserId].
  match goal with
  | |- exists row w', (Returned ?r, ?x) = _ /\ _ => exists r, x
  end.
  split; [reflexivity|].
  match goal with
  | |- context [{| files := ?fs; media := ?old ++ [?row] |}] =>
      destruct (@link_fresh_row arrange conflicts arrange_perm conflicts_key
                  old row fs (posts s) (postMedia s) postId Hids Hfresh
                  Hpost Hnone) as [Ha Hg]
  end.
  split; [exact Ha | exact Hg].
Qed.

(** X12, at scenario A and the store with three media, for the post p1. *)
Lemma uploaded_file_shows_in_post_smallStore :
  exists row w',
    uploadAndCreateMedia simpleExtname simpleJoin defaultService quietEnv
      requestA (lit "alice") (world smallStore)
    = (Returned row, w')
    /\ fst (associateMediaWithPost tableOrder samePair (lit "p1") [id row]
              {| world := w'; posts := posts smallStore;
                 postMedia := postMedia smallStore |})
       = inr {| success := true;
                associationsCreated := 1;
                mediaIds := [generatedId quietEnv] |}
    /\ getPostMedia (lit "p1")
         (snd (associateMediaWithPost tableOrder samePair (lit "p1") [id row]
                 {| world := w'; posts := posts smallStore;
                    postMedia := postMedia smallStore |}))
       = inr [{| resId := generatedId quietEnv;
                 resUrl := url row;
                 resMimeType := lit "image/png";
                 resWidth := None;
                 resHeight := None |}].
Proof.
  apply (@uploaded_file_shows_in_post tableOrder samePair
           (fun rows => Permutation_refl rows) samePair_key
           simpleExtname simpleJoin defaultService quietEnv requestA
           (lit "alice") (lit "p1") smallStore
           {| filename := lit "a.png";
              mimeType := lit "image/png";
              content := payload37 ++ CRLFbytes |}).
  - by_evaluation.
  - by_evaluation.
  - reflexivity.
  - reflexivity.
  - exact threeMedia_ids.
  - vm_compute. intuition discriminate.
  - now left.
  - constructor.
Defined.



(** ** The two upload methods side by side *)

(** X14.  [uploadFile] does what [uploadAndCreateMedia] does for the user
    id [request.user?.sub || 'anonymous']: the same files written, the
    same row created, the same exception thrown; it returns the response
    of the row where the other returns the row. *)
Theorem uploadFile_as_uploadAndCreateMedia
  (extname : jsstring -> jsstring) (pathJoin : jsstring -> jsstring -> jsstring)
  (this : Service) (env : Ambient) (request : FastifyRequest) (w : World) :
  uploadFile extname pathJoin this env request w
  = match uploadAndCreateMedia extname pathJoin this env request
            match user request with
            | Some u =>
                match sub u with
                | Some s => orElse s (lit "anonymous")
                | None => lit "anonymous"
                end
            | None => lit "anonymous"
            end w with
    | (Returned row, w') => (Returned (toResponse row), w')
    | (Thrown e, w') => (Thrown e, w')
    | (Diverged, w') => (Diverged, w')
    end.
Proof.
  unfold uploadFile, uploadAndCreateMedia, bind.
  rewrite parseMultipartFile_run.
  destruct (fst (parseMultipartFile request w)) as [[fd|]|e|]; try reflexivity.
  destruct (exceeds (length (content fd)) (maxFileSize this)); [reflexivity|].
  unfold writeFileSync. destruct (writeThrows env); [reflexivity|].
  rewrite getImageDimensions_null.
  unfold mediaCreate. destruct (createThrows env); reflexivity.
Qed.

(** ** Linking twice *)

Section LinkTwice.
Variable arrange : list MediaRecord -> list MediaRecord.
Variable conflicts : PostMedia -> PostMedia -> bool.
Hypothesis conflicts_pair :
  forall a b,
    conflicts a b = true <->
    pmPostId a = pmPostId b /\ pmMediaId a = pmMediaId b.

Lemma createMany_covers (rows table : list PostMedia) (r : PostMedia) :
  In r rows ->
  exists x,
    In x (snd (createManySkipDuplicates conflicts rows table))
    /\ conflicts r x = true.
Proof.
  revert table; induction rows as [|r0 rest IH]; intros table; simpl;
    [intros []|].
  assert (forall rows' table' x,
             In x table' ->
             In x (snd (createManySkipDuplicates conflicts rows' table')))
    as Hkeep.
  { intros rows'. induction rows' as [|y ys IHy]; intros table' x Hx; simpl;
      [exact Hx|].
    destruct (existsb (conflicts y) table'); [now apply IHy|].
    destruct (createManySkipDuplicates conflicts ys (table' ++ [y]))
      as [n t] eqn:E.
    simpl. change t with (snd (n, t)). rewrite <- E. apply IHy.
    apply in_or_app. now left. }
  intros [-> | Hin].
  - destruct (existsb (conflicts r) table) eqn:Ec.
    + apply existsb_exists in Ec as (x & Hx & Hc).
      exists x. split; [now apply Hkeep | exact Hc].
    + destruct (createManySkipDuplicates conflicts rest (table ++ [r]))
        as [n t] eqn:E.
      exists r. split.
      * simpl. change t with (snd (n, t)). rewrite <- E. apply Hkeep.
        apply in_or_app. right. now left.
      * now apply conflicts_pair.
  - destruct (existsb (conflicts r0) table); [now apply IH|].
    destruct (createManySkipDuplicates conflicts rest (table ++ [r0]))
      as [n t] eqn:E.
    destruct (IH (table ++ [r0]) Hin) as (x & Hx & Hc).
    exists x. split; [|exact Hc]. simpl. now rewrite E in Hx.
Qed.

Lemma createMany_all_present (rows table : list PostMedia) :
  (forall r, In r rows -> exists x, In x table /\ conflicts r x = true) ->
  createManySkipDuplicates conflicts rows table = (0, table).
Proof.
  induction rows as [|r rest IH]; intros H; simpl; [reflexivity|].
  assert (existsb (conflicts r) table = true) as ->.
  { apply existsb_exists. apply H. now left. }
  apply IH. intros r' Hr'. apply H. now right.
Qed.

(** X15.  When two rows of PostMedia are in conflict exactly if they have
    the same post and the same media, a call of [associateMediaWithPost]
    that succeeded, made once more, succeeds again, reports no association
    created and the same media ids, and leaves the database as the first
    call left it. *)
Theorem associate_again_adds_nothing (postId : jsstring)
  (requested : list jsstring) (s : Store) (first : Association)
  (Hfirst :
     fst (associateMediaWithPost arrange conflicts postId requested s)
     = inr first) :
  associateMediaWithPost arrange conflicts postId requested
    (snd (associateMediaWithPost arrange conflicts postId requested s))
  = (inr {| success := true;
            associationsCreated := 0;
            mediaIds := mediaIds first |},
     snd (associateMediaWithPost arrange conflicts postId requested s)).
Proof.
  revert Hfirst. unfold associateMediaWithPost.
  destruct (existsb (jsstring_eqb postId) (posts s)) eqn:Ep; [|discriminate].
  set (existing := arrange (filter (idIn requested) (media (world s)))).
  destruct (length existing =? 0) eqn:El; [discriminate|].
  destruct (createManySkipDuplicates conflicts
              (junctionRows 0 postId existing) (postMedia s))
    as [count table] eqn:Ec.
  cbn [fst snd world posts postMedia]. intros [= <-].
  fold existing. rewrite Ep, El.
  rewrite createMany_all_present; [reflexivity|].
  intros r Hr.
  destruct (createMany_covers (junctionRows 0 postId existing)
              (postMedia s) r Hr) as (x & Hx & Hc).
  rewrite Ec in Hx. now exists x.
Qed.

End LinkTwice.

Lemma samePair_pair (a b : PostMedia) :
  samePair a b = true <->
  pmPostId a = pmPostId b /\ pmMediaId a = pmMediaId b.
Proof.
  unfold samePair. now rewrite andb_true_iff, !jsstring_eqb_eq.
Qed.

(** X15, at the store with three media, for the post p1 and a request for
    m2 and m3. *)
Lemma associate_again_smallStore :
  associateMediaWithPost tableOrder samePair (lit "p1") [lit "m2"; lit "m3"]
    (snd (associateMediaWithPost tableOrder samePair (lit "p1")
            [lit "m2"; lit "m3"] smallStore))
  = (inr {| success := true;
            associationsCreated := 0;
            mediaIds := [lit "m2"; lit "m3"] |},
     snd (associateMediaWithPost tableOrder samePair (lit "p1")
            [lit "m2"; lit "m3"] smallStore)).
Proof.
  apply (@associate_again_adds_nothing tableOrder samePair samePair_pair
           (lit "p1") [lit "m2"; lit "m3"] smallStore
           {| success := true;
              associationsCreated := 2;
              mediaIds := [lit "m2"; lit "m3"] |}).
  by_evaluation.
Defined.
